(** * Platform-Game: the per-frame update loop of both variants

    [src/game-loop.js] is the endless runner (camera scrolling, procedural
    platforms, reset on fall); [src/game.js] is the fixed-screen variant
    (three platforms, horizontal clamping, resize handler).

    JavaScript numbers are idealised as exact rationals ([Q]): the
    comparisons, assignments and control flow are those of the source, the
    arithmetic is exact.  [Math.random()] is an oracle read from a tape of
    draws; a [TypeError] raised by reading a field of [undefined] is the
    [None] outcome.

    Where rounding decides what the code does, the exact model is not
    used.  The landing test of [checkCollisions] compares a computed sum
    with a platform's top edge, and for a standing player the two are
    equal up to rounding; the collision step is therefore embedded a second
    time over binary64 floats ([FixedD], [EndlessD]) and the landing rule
    is stated and proved there.  Over [Q] the statements are equations in
    the code's own expressions, closed ranges, and facts about the control
    flow. *)

From Stdlib Require Import QArith Qround ZArith List Bool String Lia Lqa.
From Stdlib Require Import Floats.
#[local] Set Warnings "-inexact-float".
Import ListNotations.
Open Scope Q_scope.

(** ** Numbers *)

(** [a < b] as the boolean the source branches on ([a > b] is [Qltb b a]). *)
Definition Qltb (a b : Q) : bool := (Qnum a * QDen b <? Qnum b * QDen a)%Z.

(** [Math.floor] *)
Definition Math_floor (q : Q) : Q := inject_Z (Qfloor q).

(** [arr[arr.length - 1]]: [undefined] on the empty array. *)
Definition last_elem {A : Type} (arr : list A) : option A :=
  nth_error arr (List.length arr - 1)%nat.

(** ** Data shared by the two files *)

Module Platform.
Record t : Type := mk { x : Q; y : Q; width : Q; height : Q }.
Definition set_x (p : t) (v : Q) : t := mk v (y p) (width p) (height p).
Definition set_y (p : t) (v : Q) : t := mk (x p) v (width p) (height p).
Definition set_width (p : t) (v : Q) : t := mk (x p) (y p) v (height p).
End Platform.

Module Canvas.
Record t : Type := mk { width : Q; height : Q }.
End Canvas.

Module Input.
Record t : Type := mk { left : bool; right : bool; jump : bool }.
Definition set_left (i : t) (b : bool) : t := mk b (right i) (jump i).
Definition set_right (i : t) (b : bool) : t := mk (left i) b (jump i).
Definition set_jump (i : t) (b : bool) : t := mk (left i) (right i) b.
End Input.

(** The calls made on the 2D drawing context, in order. *)
Inductive CanvasCall : Type :=
| SetFillStyle (style : string)
| SetFont (font : string)
| FillRect (x y w h : Q)
| FillText (text : string) (x y : Q).

(** DOM events delivered to the game object; [Frame] is one turn of
    [gameLoop] (rendering reads the state and changes nothing). *)
Inductive Event : Type :=
| KeyDown (code : string)
| KeyUp (code : string)
| TouchStart (clientX : Q)
| TouchEnd
| Resize (innerWidth innerHeight : Q)
| Frame.

(** ** The source of randomness and the error monad of the endless variant *)

(** The successive results of [Math.random()]. *)
Definition Tape : Type := nat -> Q.

Definition tape_ok (t : Tape) : Prop := forall n, 0 <= t n /\ t n < 1.

Definition M (A : Type) : Type := Tape -> option (A * Tape).

Definition ret {A : Type} (a : A) : M A := fun t => Some (a, t).

Definition bind {A B : Type} (m : M A) (k : A -> M B) : M B :=
  fun t => match m t with
           | Some (a, t') => k a t'
           | None => None
           end.

Definition throw {A : Type} : M A := fun _ => None.

Definition Math_random : M Q := fun t => Some (t O, fun n => t (S n)).

Notation "x <- c ;; k" := (bind c (fun x => k))
  (at level 61, c at next level, right associativity).

(** ** src/game-loop.js: the endless runner *)

Module Endless.

Module Player.
Record t : Type := mk {
  x : Q; y : Q; width : Q; height : Q;
  velocityX : Q; velocityY : Q; isJumping : bool;
  speed : Q; maxSpeed : Q }.
Definition set_x (p : t) (v : Q) : t :=
  mk v (y p) (width p) (height p) (velocityX p) (velocityY p) (isJumping p)
     (speed p) (maxSpeed p).
Definition set_y (p : t) (v : Q) : t :=
  mk (x p) v (width p) (height p) (velocityX p) (velocityY p) (isJumping p)
     (speed p) (maxSpeed p).
Definition set_velocityX (p : t) (v : Q) : t :=
  mk (x p) (y p) (width p) (height p) v (velocityY p) (isJumping p)
     (speed p) (maxSpeed p).
Definition set_velocityY (p : t) (v : Q) : t :=
  mk (x p) (y p) (width p) (height p) (velocityX p) v (isJumping p)
     (speed p) (maxSpeed p).
Definition set_isJumping (p : t) (b : bool) : t :=
  mk (x p) (y p) (width p) (height p) (velocityX p) (velocityY p) b
     (speed p) (maxSpeed p).
End Player.

Record Game : Type := mkGame {
  canvas : Canvas.t;
  cameraX : Q;
  distance : Q;
  player : Player.t;
  gravity : Q;
  jumpForce : Q;
  input : Input.t;
  minPlatformWidth : Q;
  maxPlatformWidth : Q;
  minGapWidth : Q;
  maxGapWidth : Q;
  platformHeight : Q;
  platforms : list Platform.t }.

Definition set_cameraX (g : Game) (v : Q) : Game :=
  mkGame (canvas g) v (distance g) (player g) (gravity g) (jumpForce g)
         (input g) (minPlatformWidth g) (maxPlatformWidth g) (minGapWidth g)
         (maxGapWidth g) (platformHeight g) (platforms g).
Definition set_distance (g : Game) (v : Q) : Game :=
  mkGame (canvas g) (cameraX g) v (player g) (gravity g) (jumpForce g)
         (input g) (minPlatformWidth g) (maxPlatformWidth g) (minGapWidth g)
         (maxGapWidth g) (platformHeight g) (platforms g).
Definition set_player (g : Game) (v : Player.t) : Game :=
  mkGame (canvas g) (cameraX g) (distance g) v (gravity g) (jumpForce g)
         (input g) (minPlatformWidth g) (maxPlatformWidth g) (minGapWidth g)
         (maxGapWidth g) (platformHeight g) (platforms g).
Definition set_input (g : Game) (v : Input.t) : Game :=
  mkGame (canvas g) (cameraX g) (distance g) (player g) (gravity g)
         (jumpForce g) v (minPlatformWidth g) (maxPlatformWidth g)
         (minGapWidth g) (maxGapWidth g) (platformHeight g) (platforms g).
Definition set_platforms (g : Game) (v : list Platform.t) : Game :=
  mkGame (canvas g) (cameraX g) (distance g) (player g) (gravity g)
         (jumpForce g) (input g) (minPlatformWidth g) (maxPlatformWidth g)
         (minGapWidth g) (maxGapWidth g) (platformHeight g) v.

(** [randomBetween(min, max)].  In exact arithmetic the result is below
    [max] for a draw below 1; in doubles it can round to [max], so only the
    closed range from [min] to [max] is stated of it. *)
Definition randomBetween (min max : Q) : M Q :=
  r <- Math_random ;; ret (r * (max - min) + min).

(** [addNewPlatform(startX)]: the width is drawn before the height. *)
Definition addNewPlatform (startX : Q) (this : Game) : M Game :=
  width <- randomBetween (minPlatformWidth this) (maxPlatformWidth this) ;;
  y <- randomBetween (Canvas.height (canvas this) * 0.3)
                     (Canvas.height (canvas this) * 0.7) ;;
  ret (set_platforms this
         (platforms this ++
          [Platform.mk startX y width (platformHeight this)])).

(** The [for] loop of [generateInitialPlatforms], [n] iterations left. *)
Fixpoint generateInitialPlatforms_loop (n : nat) (nextX : Q) (this : Game)
  : M Game :=
  match n with
  | O => ret this
  | S n' =>
      this1 <- addNewPlatform nextX this ;;
      match last_elem (platforms this1) with
      | None => throw
      | Some lastPlatform =>
          gap <- randomBetween (minGapWidth this1) (maxGapWidth this1) ;;
          generateInitialPlatforms_loop n'
            (nextX + (Platform.width lastPlatform + gap)) this1
      end
  end.

Definition generateInitialPlatforms (this : Game) : M Game :=
  let this :=
    set_platforms this
      (platforms this ++
       [Platform.mk 0 (Canvas.height (canvas this) - 50)
                    (Canvas.width (canvas this) * 2) 50]) in
  generateInitialPlatforms_loop 10 (Canvas.width (canvas this)) this.

Definition constructor (innerWidth innerHeight : Q) : M Game :=
  generateInitialPlatforms
    (mkGame (Canvas.mk innerWidth innerHeight) 0 0
       (Player.mk (innerWidth / 3) 100 32 48 0 0 false 5 8)
       0.5 (-12) (Input.mk false false false)
       100 300 100 200 20 []).

Definition handleKeyDown (code : string) (this : Game) : Game :=
  if String.eqb code "ArrowLeft" then
    set_input this (Input.set_left (input this) true)
  else if String.eqb code "ArrowRight" then
    set_input this (Input.set_right (input this) true)
  else if String.eqb code "Space" then
    set_input this (Input.set_jump (input this) true)
  else this.

Definition handleKeyUp (code : string) (this : Game) : Game :=
  if String.eqb code "ArrowLeft" then
    set_input this (Input.set_left (input this) false)
  else if String.eqb code "ArrowRight" then
    set_input this (Input.set_right (input this) false)
  else if String.eqb code "Space" then
    set_input this (Input.set_jump (input this) false)
  else this.

Definition handleTouch (clientX : Q) (this : Game) : Game :=
  if Qltb clientX (Canvas.width (canvas this) / 3) then
    set_input this
      (Input.set_right (Input.set_left (input this) true) false)
  else if Qltb (Canvas.width (canvas this) * 2 / 3) clientX then
    set_input this
      (Input.set_left (Input.set_right (input this) true) false)
  else set_input this (Input.set_jump (input this) true).

Definition handleTouchEnd (this : Game) : Game :=
  set_input this (Input.mk false false false).

(** [update], lines 156-176: input to velocity, jump, gravity, position. *)
Definition movePlayer (this : Game) : Game :=
  let p := player this in
  let p :=
    if Input.right (input this) then Player.set_velocityX p (Player.speed p)
    else if Input.left (input this) then
      Player.set_velocityX p (- Player.speed p)
    else Player.set_velocityX p 0 in
  let p :=
    if Input.jump (input this) && negb (Player.isJumping p) then
      Player.set_isJumping (Player.set_velocityY p (jumpForce this)) true
    else p in
  let p := Player.set_velocityY p (Player.velocityY p + gravity this) in
  let p := Player.set_x p (Player.x p + Player.velocityX p) in
  let p := Player.set_y p (Player.y p + Player.velocityY p) in
  set_player this p.

(** [update], lines 178-183: the camera follows the player.  The
    difference is exact here; in doubles [cameraX] is the rounded
    difference, so [player.x - cameraX] need not be a third of the width
    again. *)
Definition followCamera (this : Game) : Game :=
  if Qltb (Canvas.width (canvas this) / 3) (Player.x (player this)) then
    let this :=
      set_cameraX this
        (Player.x (player this) - Canvas.width (canvas this) / 3) in
    set_distance this (Math_floor (cameraX this / 100))
  else this.

(** The retention test of [updatePlatforms]. *)
Definition retained (this : Game) (platform : Platform.t) : bool :=
  Qltb (cameraX this - 300) (Platform.x platform + Platform.width platform).

Definition updatePlatforms (this : Game) : M Game :=
  let this := set_platforms this (filter (retained this) (platforms this)) in
  match last_elem (platforms this) with
  | None => throw
  | Some lastPlatform =>
      if Qltb (Platform.x lastPlatform + Platform.width lastPlatform)
              (cameraX this + Canvas.width (canvas this) + 500)
      then
        gap <- randomBetween (minGapWidth this) (maxGapWidth this) ;;
        addNewPlatform
          (Platform.x lastPlatform + Platform.width lastPlatform + gap) this
      else ret this
  end.

(** The outer [if] of the loop body of [checkCollisions]. *)
Definition overlaps (p : Player.t) (platform : Platform.t) : bool :=
  Qltb (Player.x p) (Platform.x platform + Platform.width platform) &&
  Qltb (Platform.x platform) (Player.x p + Player.width p) &&
  Qltb (Player.y p) (Platform.y platform + Platform.height platform) &&
  Qltb (Platform.y platform) (Player.y p + Player.height p).

(** The inner [if]: falling, and the previous bottom edge not below the
    platform's top.  The sum is exact here; [EndlessD.landing] is the same
    test on the rounded sum. *)
Definition landing (p : Player.t) (platform : Platform.t) : bool :=
  Qltb 0 (Player.velocityY p) &&
  Qle_bool (Player.y p + Player.height p - Player.velocityY p)
           (Platform.y platform).

(** One iteration of the [for] loop of [checkCollisions]. *)
Definition collide (p : Player.t) (platform : Platform.t) : Player.t :=
  if overlaps p platform then
    if landing p platform then
      Player.set_isJumping
        (Player.set_velocityY
           (Player.set_y p (Platform.y platform - Player.height p)) 0)
        false
    else p
  else p.

Definition checkCollisions (this : Game) : Game :=
  set_player this
    (fold_left collide (platforms this)
       (Player.set_isJumping (player this) true)).

Definition resetGame (this : Game) : M Game :=
  let this := set_cameraX this 0 in
  let this := set_distance this 0 in
  let p := player this in
  let p := Player.set_x p (Canvas.width (canvas this) / 3) in
  let p := Player.set_y p 100 in
  let p := Player.set_velocityX p 0 in
  let p := Player.set_velocityY p 0 in
  let this := set_player this p in
  let this := set_platforms this [] in
  generateInitialPlatforms this.

(** The state on which the fall test of [update] is made. *)
Definition beforeFallCheck (this : Game) : M Game :=
  this <- updatePlatforms (followCamera (movePlayer this)) ;;
  ret (checkCollisions this).

Definition fellOff (this : Game) : bool :=
  Qltb (Canvas.height (canvas this)) (Player.y (player this)).

Definition update (this : Game) : M Game :=
  this <- beforeFallCheck this ;;
  if fellOff this then resetGame this else ret this.

(** The endless variant registers no resize listener. *)
Definition handle (e : Event) (this : Game) : M Game :=
  match e with
  | KeyDown code => ret (handleKeyDown code this)
  | KeyUp code => ret (handleKeyUp code this)
  | TouchStart clientX => ret (handleTouch clientX this)
  | TouchEnd => ret (handleTouchEnd this)
  | Resize _ _ => ret this
  | Frame => update this
  end.

Fixpoint run (es : list Event) (this : Game) : M Game :=
  match es with
  | [] => ret this
  | e :: es' => this' <- handle e this ;; run es' this'
  end.

(** The states the program reaches: a window of non-negative size, draws
    of [Math.random()] in [0, 1), then any sequence of events. *)
Inductive Reachable : Game -> Tape -> Prop :=
| reach_new : forall innerWidth innerHeight t0 g t,
    0 <= innerWidth -> 0 <= innerHeight -> tape_ok t0 ->
    constructor innerWidth innerHeight t0 = Some (g, t) ->
    Reachable g t
| reach_event : forall e g t g' t',
    Reachable g t -> handle e g t = Some (g', t') -> Reachable g' t'.

(** [render]: the calls it makes on the context.  [toString] is the
    runtime's conversion of a number in a template literal, [hasTouch] the
    value of ['ontouchstart' in window]. *)
Definition render (toString : Q -> string) (hasTouch : bool) (this : Game)
  : list CanvasCall :=
  [SetFillStyle "#000000";
   FillRect 0 0 (Canvas.width (canvas this)) (Canvas.height (canvas this));
   SetFillStyle "#888888"]
  ++ map (fun platform =>
            FillRect (Platform.x platform - cameraX this)
                     (Platform.y platform) (Platform.width platform)
                     (Platform.height platform))
         (platforms this)
  ++ [SetFillStyle "#00ff00";
      FillRect (Player.x (player this) - cameraX this)
               (Player.y (player this)) (Player.width (player this))
               (Player.height (player this));
      SetFillStyle "#ffffff";
      SetFont "24px Arial";
      FillText (String.append "Distance: " (toString (distance this))) 20 40]
  ++ (if hasTouch then
        [SetFillStyle "rgba(255, 255, 255, 0.1)";
         FillRect 0 0 (Canvas.width (canvas this) / 3)
                  (Canvas.height (canvas this));
         FillRect (Canvas.width (canvas this) * 2 / 3) 0
                  (Canvas.width (canvas this) / 3)
                  (Canvas.height (canvas this))]
      else []).

(** [gameLoop]: the state after the frame and what was drawn; the next
    frame is requested only if [update] did not throw. *)
Definition gameLoop (toString : Q -> string) (hasTouch : bool) (this : Game)
  : M (Game * list CanvasCall) :=
  this <- update this ;;
  ret (this, render toString hasTouch this).

End Endless.

(** ** src/game.js: the fixed-screen variant *)

Module Fixed.

Module Player.
Record t : Type := mk {
  x : Q; y : Q; width : Q; height : Q;
  velocityX : Q; velocityY : Q; isJumping : bool }.
Definition set_x (p : t) (v : Q) : t :=
  mk v (y p) (width p) (height p) (velocityX p) (velocityY p) (isJumping p).
Definition set_y (p : t) (v : Q) : t :=
  mk (x p) v (width p) (height p) (velocityX p) (velocityY p) (isJumping p).
Definition set_velocityX (p : t) (v : Q) : t :=
  mk (x p) (y p) (width p) (height p) v (velocityY p) (isJumping p).
Definition set_velocityY (p : t) (v : Q) : t :=
  mk (x p) (y p) (width p) (height p) (velocityX p) v (isJumping p).
Definition set_isJumping (p : t) (b : bool) : t :=
  mk (x p) (y p) (width p) (height p) (velocityX p) (velocityY p) b.
End Player.

Record Game : Type := mkGame {
  canvas : Canvas.t;
  player : Player.t;
  gravity : Q;
  jumpForce : Q;
  moveSpeed : Q;
  input : Input.t;
  platforms : list Platform.t }.

Definition set_canvas (g : Game) (v : Canvas.t) : Game :=
  mkGame v (player g) (gravity g) (jumpForce g) (moveSpeed g) (input g)
         (platforms g).
Definition set_player (g : Game) (v : Player.t) : Game :=
  mkGame (canvas g) v (gravity g) (jumpForce g) (moveSpeed g) (input g)
         (platforms g).
Definition set_input (g : Game) (v : Input.t) : Game :=
  mkGame (canvas g) (player g) (gravity g) (jumpForce g) (moveSpeed g) v
         (platforms g).
Definition set_platforms (g : Game) (v : list Platform.t) : Game :=
  mkGame (canvas g) (player g) (gravity g) (jumpForce g) (moveSpeed g)
         (input g) v.

Definition constructor (innerWidth innerHeight : Q) : Game :=
  mkGame (Canvas.mk innerWidth innerHeight)
    (Player.mk 100 100 32 48 0 0 false)
    0.5 (-12) 5 (Input.mk false false false)
    [ Platform.mk 0 (innerHeight - 50) innerWidth 50;
      Platform.mk (innerWidth * 0.3) (innerHeight * 0.7) 200 20;
      Platform.mk (innerWidth * 0.1) (innerHeight * 0.5) 200 20 ].

(** [arr[i].field = v]: the element is updated in place; reading a field
    of [arr[i]] when it is [undefined] raises a [TypeError]. *)
Fixpoint assign (arr : list Platform.t) (i : nat)
  (f : Platform.t -> Platform.t) : option (list Platform.t) :=
  match arr, i with
  | [], _ => None
  | p :: rest, O => Some (f p :: rest)
  | p :: rest, S i' =>
      match assign rest i' f with
      | Some rest' => Some (p :: rest')
      | None => None
      end
  end.

Definition andThen {A B : Type} (o : option A) (k : A -> option B)
  : option B :=
  match o with
  | Some a => k a
  | None => None
  end.

(** The listener registered for ['resize'] in the constructor. *)
Definition handleResize (innerWidth innerHeight : Q) (this : Game)
  : option Game :=
  let this := set_canvas this (Canvas.mk innerWidth innerHeight) in
  let w := Canvas.width (canvas this) in
  let h := Canvas.height (canvas this) in
  andThen (assign (platforms this) 0 (fun p => Platform.set_width p w))
  (fun ps =>
  andThen (assign ps 0 (fun p => Platform.set_y p (h - 50)))
  (fun ps =>
  andThen (assign ps 1 (fun p => Platform.set_x p (w * 0.3)))
  (fun ps =>
  andThen (assign ps 1 (fun p => Platform.set_y p (h * 0.7)))
  (fun ps =>
  andThen (assign ps 2 (fun p => Platform.set_x p (w * 0.1)))
  (fun ps =>
  andThen (assign ps 2 (fun p => Platform.set_y p (h * 0.5)))
  (fun ps => Some (set_platforms this ps))))))).

Definition handleKeyDown (code : string) (this : Game) : Game :=
  if String.eqb code "ArrowLeft" then
    set_input this (Input.set_left (input this) true)
  else if String.eqb code "ArrowRight" then
    set_input this (Input.set_right (input this) true)
  else if String.eqb code "Space" then
    set_input this (Input.set_jump (input this) true)
  else this.

Definition handleKeyUp (code : string) (this : Game) : Game :=
  if String.eqb code "ArrowLeft" then
    set_input this (Input.set_left (input this) false)
  else if String.eqb code "ArrowRight" then
    set_input this (Input.set_right (input this) false)
  else if String.eqb code "Space" then
    set_input this (Input.set_jump (input this) false)
  else this.

Definition handleTouch (clientX : Q) (this : Game) : Game :=
  if Qltb clientX (Canvas.width (canvas this) / 3) then
    set_input this
      (Input.set_right (Input.set_left (input this) true) false)
  else if Qltb (Canvas.width (canvas this) * 2 / 3) clientX then
    set_input this
      (Input.set_left (Input.set_right (input this) true) false)
  else set_input this (Input.set_jump (input this) true).

Definition handleTouchEnd (this : Game) : Game :=
  set_input this (Input.mk false false false).

(** [update], lines 129-149: input to velocity, jump, gravity, position. *)
Definition movePlayer (this : Game) : Game :=
  let p := player this in
  let p :=
    if Input.left (input this) then
      Player.set_velocityX p (- moveSpeed this)
    else if Input.right (input this) then
      Player.set_velocityX p (moveSpeed this)
    else Player.set_velocityX p 0 in
  let p :=
    if Input.jump (input this) && negb (Player.isJumping p) then
      Player.set_isJumping (Player.set_velocityY p (jumpForce this)) true
    else p in
  let p := Player.set_velocityY p (Player.velocityY p + gravity this) in
  let p := Player.set_x p (Player.x p + Player.velocityX p) in
  let p := Player.set_y p (Player.y p + Player.velocityY p) in
  set_player this p.

(** [update], lines 151-155: basic boundary checking. *)
Definition clampToCanvas (this : Game) : Game :=
  let p := player this in
  let p := if Qltb (Player.x p) 0 then Player.set_x p 0 else p in
  let p :=
    if Qltb (Canvas.width (canvas this)) (Player.x p + Player.width p) then
      Player.set_x p (Canvas.width (canvas this) - Player.width p)
    else p in
  set_player this p.

Definition overlaps (p : Player.t) (platform : Platform.t) : bool :=
  Qltb (Player.x p) (Platform.x platform + Platform.width platform) &&
  Qltb (Platform.x platform) (Player.x p + Player.width p) &&
  Qltb (Player.y p) (Platform.y platform + Platform.height platform) &&
  Qltb (Platform.y platform) (Player.y p + Player.height p).

(** The inner [if].  The sum is exact here; [FixedD.landing] is the same
    test on the rounded sum. *)
Definition landing (p : Player.t) (platform : Platform.t) : bool :=
  Qltb 0 (Player.velocityY p) &&
  Qle_bool (Player.y p + Player.height p - Player.velocityY p)
           (Platform.y platform).

(** One iteration of the [for] loop of [checkCollisions]. *)
Definition collide (p : Player.t) (platform : Platform.t) : Player.t :=
  if overlaps p platform then
    if landing p platform then
      Player.set_isJumping
        (Player.set_velocityY
           (Player.set_y p (Platform.y platform - Player.height p)) 0)
        false
    else p
  else p.

Definition checkCollisions (this : Game) : Game :=
  set_player this
    (fold_left collide (platforms this)
       (Player.set_isJumping (player this) true)).

Definition update (this : Game) : Game :=
  checkCollisions (clampToCanvas (movePlayer this)).

Definition handle (e : Event) (this : Game) : option Game :=
  match e with
  | KeyDown code => Some (handleKeyDown code this)
  | KeyUp code => Some (handleKeyUp code this)
  | TouchStart clientX => Some (handleTouch clientX this)
  | TouchEnd => Some (handleTouchEnd this)
  | Resize innerWidth innerHeight => handleResize innerWidth innerHeight this
  | Frame => Some (update this)
  end.

Fixpoint run (es : list Event) (this : Game) : option Game :=
  match es with
  | [] => Some this
  | e :: es' => andThen (handle e this) (run es')
  end.

Inductive Reachable : Game -> Prop :=
| reach_new : forall innerWidth innerHeight,
    Reachable (constructor innerWidth innerHeight)
| reach_event : forall e g g',
    Reachable g -> handle e g = Some g' -> Reachable g'.

(** [render]: the calls it makes on the context; [hasTouch] is the value
    of ['ontouchstart' in window]. *)
Definition render (hasTouch : bool) (this : Game) : list CanvasCall :=
  [SetFillStyle "#000000";
   FillRect 0 0 (Canvas.width (canvas this)) (Canvas.height (canvas this));
   SetFillStyle "#00ff00";
   FillRect (Player.x (player this)) (Player.y (player this))
            (Player.width (player this)) (Player.height (player this));
   SetFillStyle "#888888"]
  ++ map (fun platform =>
            FillRect (Platform.x platform) (Platform.y platform)
                     (Platform.width platform) (Platform.height platform))
         (platforms this)
  ++ (if hasTouch then
        [SetFillStyle "rgba(255, 255, 255, 0.1)";
         FillRect 0 0 (Canvas.width (canvas this) / 3)
                  (Canvas.height (canvas this));
         FillRect (Canvas.width (canvas this) * 2 / 3) 0
                  (Canvas.width (canvas this) / 3)
                  (Canvas.height (canvas this))]
      else []).

(** [gameLoop]: the state after the frame and what was drawn. *)
Definition gameLoop (hasTouch : bool) (this : Game)
  : Game * list CanvasCall :=
  let this := update this in
  (this, render hasTouch this).

End Fixed.

(** A tape on which every draw of [Math.random()] is one half. *)
Definition half_tape : Tape := fun _ => 1 # 2.

(** ** The collision step in IEEE doubles

    The landing test [y + height - velocityY <= platform.y] is decided by
    rounding when the previous bottom edge is on the platform's top, which
    is where a standing player is on every frame.  For the landing rule
    the two files are therefore also embedded over binary64 floats, with
    the operations and comparisons of the source evaluated as JavaScript
    evaluates them; [NaN] compares false, as in the source. *)

Module PlatformD.
Record t : Type := mk { x : float; y : float; width : float; height : float }.
End PlatformD.

Module CanvasD.
Record t : Type := mk { width : float; height : float }.
End CanvasD.

(** [src/game.js] over doubles: constructor, update, checkCollisions. *)
Module FixedD.
#[local] Open Scope float_scope.

Module Player.
Record t : Type := mk {
  x : float; y : float; width : float; height : float;
  velocityX : float; velocityY : float; isJumping : bool }.
Definition set_x (p : t) (v : float) : t :=
  mk v (y p) (width p) (height p) (velocityX p) (velocityY p) (isJumping p).
Definition set_y (p : t) (v : float) : t :=
  mk (x p) v (width p) (height p) (velocityX p) (velocityY p) (isJumping p).
Definition set_velocityX (p : t) (v : float) : t :=
  mk (x p) (y p) (width p) (height p) v (velocityY p) (isJumping p).
Definition set_velocityY (p : t) (v : float) : t :=
  mk (x p) (y p) (width p) (height p) (velocityX p) v (isJumping p).
Definition set_isJumping (p : t) (b : bool) : t :=
  mk (x p) (y p) (width p) (height p) (velocityX p) (velocityY p) b.
End Player.

Record Game : Type := mkGame {
  canvas : CanvasD.t;
  player : Player.t;
  gravity : float;
  jumpForce : float;
  moveSpeed : float;
  input : Input.t;
  platforms : list PlatformD.t }.

Definition set_player (g : Game) (v : Player.t) : Game :=
  mkGame (canvas g) v (gravity g) (jumpForce g) (moveSpeed g) (input g)
         (platforms g).

Definition constructor (innerWidth innerHeight : float) : Game :=
  mkGame (CanvasD.mk innerWidth innerHeight)
    (Player.mk 100 100 32 48 0 0 false)
    0.5 (-12) 5 (Input.mk false false false)
    [ PlatformD.mk 0 (innerHeight - 50) innerWidth 50;
      PlatformD.mk (innerWidth * 0.3) (innerHeight * 0.7) 200 20;
      PlatformD.mk (innerWidth * 0.1) (innerHeight * 0.5) 200 20 ].

(** [update], lines 129-149. *)
Definition movePlayer (this : Game) : Game :=
  let p := player this in
  let p :=
    if Input.left (input this) then
      Player.set_velocityX p (- moveSpeed this)
    else if Input.right (input this) then
      Player.set_velocityX p (moveSpeed this)
    else Player.set_velocityX p 0 in
  let p :=
    if Input.jump (input this) && negb (Player.isJumping p) then
      Player.set_isJumping (Player.set_velocityY p (jumpForce this)) true
    else p in
  let p := Player.set_velocityY p (Player.velocityY p + gravity this) in
  let p := Player.set_x p (Player.x p + Player.velocityX p) in
  let p := Player.set_y p (Player.y p + Player.velocityY p) in
  set_player this p.

(** [update], lines 151-155. *)
Definition clampToCanvas (this : Game) : Game :=
  let p := player this in
  let p := if Player.x p <? 0 then Player.set_x p 0 else p in
  let p :=
    if CanvasD.width (canvas this) <? Player.x p + Player.width p then
      Player.set_x p (CanvasD.width (canvas this) - Player.width p)
    else p in
  set_player this p.

Definition overlaps (p : Player.t) (platform : PlatformD.t) : bool :=
  (Player.x p <? PlatformD.x platform + PlatformD.width platform) &&
  (PlatformD.x platform <? Player.x p + Player.width p) &&
  (Player.y p <? PlatformD.y platform + PlatformD.height platform) &&
  (PlatformD.y platform <? Player.y p + Player.height p).

Definition landing (p : Player.t) (platform : PlatformD.t) : bool :=
  (0 <? Player.velocityY p) &&
  (Player.y p + Player.height p - Player.velocityY p
   <=? PlatformD.y platform).

(** One iteration of the [for] loop of [checkCollisions]. *)
Definition collide (p : Player.t) (platform : PlatformD.t) : Player.t :=
  if overlaps p platform then
    if landing p platform then
      Player.set_isJumping
        (Player.set_velocityY
           (Player.set_y p (PlatformD.y platform - Player.height p)) 0)
        false
    else p
  else p.

Definition checkCollisions (this : Game) : Game :=
  set_player this
    (fold_left collide (platforms this)
       (Player.set_isJumping (player this) true)).

Definition update (this : Game) : Game :=
  checkCollisions (clampToCanvas (movePlayer this)).


End FixedD.

(** [src/game-loop.js] over doubles: the state and [checkCollisions]. *)
Module EndlessD.
#[local] Open Scope float_scope.

Module Player.
Record t : Type := mk {
  x : float; y : float; width : float; height : float;
  velocityX : float; velocityY : float; isJumping : bool;
  speed : float; maxSpeed : float }.
Definition set_y (p : t) (v : float) : t :=
  mk (x p) v (width p) (height p) (velocityX p) (velocityY p) (isJumping p)
     (speed p) (maxSpeed p).
Definition set_velocityY (p : t) (v : float) : t :=
  mk (x p) (y p) (width p) (height p) (velocityX p) v (isJumping p)
     (speed p) (maxSpeed p).
Definition set_isJumping (p : t) (b : bool) : t :=
  mk (x p) (y p) (width p) (height p) (velocityX p) (velocityY p) b
     (speed p) (maxSpeed p).
End Player.

Record Game : Type := mkGame {
  canvas : CanvasD.t;
  cameraX : float;
  distance : float;
  player : Player.t;
  gravity : float;
  jumpForce : float;
  input : Input.t;
  minPlatformWidth : float;
  maxPlatformWidth : float;
  minGapWidth : float;
  maxGapWidth : float;
  platformHeight : float;
  platforms : list PlatformD.t }.

Definition set_player (g : Game) (v : Player.t) : Game :=
  mkGame (canvas g) (cameraX g) (distance g) v (gravity g) (jumpForce g)
         (input g) (minPlatformWidth g) (maxPlatformWidth g) (minGapWidth g)
         (maxGapWidth g) (platformHeight g) (platforms g).

Definition overlaps (p : Player.t) (platform : PlatformD.t) : bool :=
  (Player.x p <? PlatformD.x platform + PlatformD.width platform) &&
  (PlatformD.x platform <? Player.x p + Player.width p) &&
  (Player.y p <? PlatformD.y platform + PlatformD.height platform) &&
  (PlatformD.y platform <? Player.y p + Player.height p).

Definition landing (p : Player.t) (platform : PlatformD.t) : bool :=
  (0 <? Player.velocityY p) &&
  (Player.y p + Player.height p - Player.velocityY p
   <=? PlatformD.y platform).

(** One iteration of the [for] loop of [checkCollisions]. *)
Definition collide (p : Player.t) (platform : PlatformD.t) : Player.t :=
  if overlaps p platform then
    if landing p platform then
      Player.set_isJumping
        (Player.set_velocityY
           (Player.set_y p (PlatformD.y platform - Player.height p)) 0)
        false
    else p
  else p.

Definition checkCollisions (this : Game) : Game :=
  set_player this
    (fold_left collide (platforms this)
       (Player.set_isJumping (player this) true)).

End EndlessD.

(** The landing rule over doubles: every comparison is the one the code
    evaluates, on the values the code computes. *)
Module FixedRuleD.
Import FixedD.
#[local] Open Scope float_scope.

Definition overlap (p : Player.t) (q : PlatformD.t) : Prop :=
  (Player.x p <? PlatformD.x q + PlatformD.width q) = true /\
  (PlatformD.x q <? Player.x p + Player.width p) = true /\
  (Player.y p <? PlatformD.y q + PlatformD.height q) = true /\
  (PlatformD.y q <? Player.y p + Player.height p) = true.

(** The previous bottom edge as the code computes it. *)
Definition previous_bottom (p : Player.t) : float :=
  Player.y p + Player.height p - Player.velocityY p.

Definition lands (p : Player.t) (q : PlatformD.t) : Prop :=
  overlap p q /\ (0 <? Player.velocityY p) = true /\
  (previous_bottom p <=? PlatformD.y q) = true.

Definition lands_strictly (p : Player.t) (q : PlatformD.t) : Prop :=
  overlap p q /\ (0 <? Player.velocityY p) = true /\
  (previous_bottom p <? PlatformD.y q) = true.

Definition snapped (p : Player.t) (q : PlatformD.t) : Player.t :=
  Player.mk (Player.x p) (PlatformD.y q - Player.height p) (Player.width p)
    (Player.height p) (Player.velocityX p) 0 false.

Definition playerAfter (this : Game) (done : list PlatformD.t) : Player.t :=
  fold_left collide done (Player.set_isJumping (player this) true).

End FixedRuleD.

Module EndlessRuleD.
Import EndlessD.
#[local] Open Scope float_scope.

Definition overlap (p : Player.t) (q : PlatformD.t) : Prop :=
  (Player.x p <? PlatformD.x q + PlatformD.width q) = true /\
  (PlatformD.x q <? Player.x p + Player.width p) = true /\
  (Player.y p <? PlatformD.y q + PlatformD.height q) = true /\
  (PlatformD.y q <? Player.y p + Player.height p) = true.

Definition previous_bottom (p : Player.t) : float :=
  Player.y p + Player.height p - Player.velocityY p.

Definition lands (p : Player.t) (q : PlatformD.t) : Prop :=
  overlap p q /\ (0 <? Player.velocityY p) = true /\
  (previous_bottom p <=? PlatformD.y q) = true.

Definition lands_strictly (p : Player.t) (q : PlatformD.t) : Prop :=
  overlap p q /\ (0 <? Player.velocityY p) = true /\
  (previous_bottom p <? PlatformD.y q) = true.

Definition snapped (p : Player.t) (q : PlatformD.t) : Player.t :=
  Player.mk (Player.x p) (PlatformD.y q - Player.height p) (Player.width p)
    (Player.height p) (Player.velocityX p) 0 false (Player.speed p)
    (Player.maxSpeed p).

Definition playerAfter (this : Game) (done : list PlatformD.t) : Player.t :=
  fold_left collide done (Player.set_isJumping (player this) true).

End EndlessRuleD.




(** ** The collision rule, as propositions over the rationals *)

Module EndlessRule.
Import Endless.

(** Overlap on both axes, all four comparisons strict. *)
Definition overlap (p : Player.t) (q : Platform.t) : Prop :=
  Player.x p < Platform.x q + Platform.width q /\
  Platform.x q < Player.x p + Player.width p /\
  Player.y p < Platform.y q + Platform.height q /\
  Platform.y q < Player.y p + Player.height p.

Definition previous_bottom (p : Player.t) : Q :=
  Player.y p + Player.height p - Player.velocityY p.

(** The landing condition with the previous bottom edge at or above the
    platform's top edge. *)
Definition lands (p : Player.t) (q : Platform.t) : Prop :=
  overlap p q /\ 0 < Player.velocityY p /\ previous_bottom p <= Platform.y q.

Definition snapped (p : Player.t) (q : Platform.t) : Player.t :=
  Player.mk (Player.x p) (Platform.y q - Player.height p) (Player.width p)
    (Player.height p) (Player.velocityX p) 0 false (Player.speed p)
    (Player.maxSpeed p).

(** The player rectangle touches the platform along an edge or a corner. *)
Definition touches (p : Player.t) (q : Platform.t) : Prop :=
  Player.y p + Player.height p == Platform.y q \/
  Player.y p == Platform.y q + Platform.height q \/
  Player.x p + Player.width p == Platform.x q \/
  Player.x p == Platform.x q + Platform.width q.

End EndlessRule.

Module FixedRule.
Import Fixed.

Definition overlap (p : Player.t) (q : Platform.t) : Prop :=
  Player.x p < Platform.x q + Platform.width q /\
  Platform.x q < Player.x p + Player.width p /\
  Player.y p < Platform.y q + Platform.height q /\
  Platform.y q < Player.y p + Player.height p.

Definition previous_bottom (p : Player.t) : Q :=
  Player.y p + Player.height p - Player.velocityY p.

Definition lands (p : Player.t) (q : Platform.t) : Prop :=
  overlap p q /\ 0 < Player.velocityY p /\ previous_bottom p <= Platform.y q.

Definition snapped (p : Player.t) (q : Platform.t) : Player.t :=
  Player.mk (Player.x p) (Platform.y q - Player.height p) (Player.width p)
    (Player.height p) (Player.velocityX p) 0 false.

Definition touches (p : Player.t) (q : Platform.t) : Prop :=
  Player.y p + Player.height p == Platform.y q \/
  Player.y p == Platform.y q + Platform.height q \/
  Player.x p + Player.width p == Platform.x q \/
  Player.x p == Platform.x q + Platform.width q.

End FixedRule.

Definition ledge : Platform.t := Platform.mk 0 100 200 20.

(** The fixed variant in a 800 x 600 window after 25 frames without input:
    the player has fallen from y = 100 onto the third platform (top at
    300) and stands on it. *)
Definition landed_game : Fixed.Game :=
  Eval vm_compute in
    match Fixed.run (repeat Frame 25) (Fixed.constructor 800 600) with
    | Some g => g
    | None => Fixed.constructor 800 600
    end.

(** ** Platform generation and the reachable states of the endless variant *)

(** The tape after [k] draws. *)
Definition drop (k : nat) (t : Tape) : Tape := fun n => t (k + n)%nat.

Module EndlessGen.
Import Endless.

(** [v] is [r * (hi - lo) + lo] for some [r] in [0, 1).  This is a range
    predicate for the invariants: it does not record which draw of
    [Math.random()] gave [v]; [EndlessDraws] below does. *)
Definition sample (lo hi v : Q) : Prop :=
  exists r, 0 <= r /\ r < 1 /\ v == r * (hi - lo) + lo.

Definition ground (c : Canvas.t) : Platform.t :=
  Platform.mk 0 (Canvas.height c - 50) (Canvas.width c * 2) 50.

(** Width, height and vertical position of a platform built by
    [addNewPlatform] on canvas [c]. *)
Definition generated (c : Canvas.t) (p : Platform.t) : Prop :=
  sample 100 300 (Platform.width p) /\
  100 <= Platform.width p <= 300 /\
  sample (Canvas.height c * 0.3) (Canvas.height c * 0.7) (Platform.y p) /\
  Canvas.height c * 0.3 <= Platform.y p <= Canvas.height c * 0.7 /\
  Platform.height p = 20.

(** [p] starts a sampled gap after the right edge of [prev]. *)
Definition follows (prev p : Platform.t) : Prop :=
  sample 100 200 (Platform.x p - (Platform.x prev + Platform.width prev)) /\
  100 <= Platform.x p - (Platform.x prev + Platform.width prev) <= 200.

Fixpoint chained (prev : Platform.t) (l : list Platform.t) : Prop :=
  match l with
  | [] => True
  | p :: l' => follows prev p /\ chained p l'
  end.

(** The list built by [generateInitialPlatforms] from the empty list: the
    ground, a first platform at the canvas width, nine more in a chain. *)
Definition initial_layout (c : Canvas.t) (l : list Platform.t) : Prop :=
  exists first rest,
    l = ground c :: first :: rest /\
    List.length rest = 9%nat /\
    Platform.x first = Canvas.width c /\
    Forall (generated c) (first :: rest) /\
    chained first rest.

(** The platform pushed by [addNewPlatform(startX)] on tape [t]. *)
Definition newPlatform (startX : Q) (this : Game) (t : Tape) : Platform.t :=
  Platform.mk startX
    (t 1%nat * (Canvas.height (canvas this) * 0.7
                - Canvas.height (canvas this) * 0.3)
     + Canvas.height (canvas this) * 0.3)
    (t 0%nat * (maxPlatformWidth this - minPlatformWidth this)
     + minPlatformWidth this)
    (platformHeight this).

(** The platforms pushed by [n] iterations of the initial loop. *)
Fixpoint initialPlatforms (n : nat) (nextX : Q) (this : Game) (t : Tape)
  : list Platform.t :=
  match n with
  | O => []
  | S n' =>
      let p := newPlatform nextX this t in
      let gap :=
        t 2%nat * (maxGapWidth this - minGapWidth this) + minGapWidth this in
      p :: initialPlatforms n' (nextX + (Platform.width p + gap)) this
             (drop 3 t)
  end.

(** The tape after [n] iterations of the initial loop. *)
Fixpoint skip (n : nat) (t : Tape) : Tape :=
  match n with
  | O => t
  | S n' => skip n' (drop 3 t)
  end.

Fixpoint after_gaps (n : nat) (x : Q) : Q :=
  match n with
  | O => x
  | S n' => after_gaps n' (x + 200)
  end.

(** The invariant of the reachable states; [slack] is how far the camera
    may have run ahead of the last platform since it was last checked. *)
Record InvS (slack : Q) (g : Game) : Prop := mkInv {
  inv_minW : minPlatformWidth g = 100;
  inv_maxW : maxPlatformWidth g = 300;
  inv_minG : minGapWidth g = 100;
  inv_maxG : maxGapWidth g = 200;
  inv_pH : platformHeight g = 20;
  inv_speed : Player.speed (player g) = 5;
  inv_cw : 0 <= Canvas.width (canvas g);
  inv_ch : 0 <= Canvas.height (canvas g);
  inv_cam0 : 0 <= cameraX g;
  inv_cam : Player.x (player g) - Canvas.width (canvas g) / 3 <= cameraX g;
  inv_dist : distance g = Math_floor (cameraX g / 100);
  inv_last : exists l p,
      platforms g = l ++ [p] /\
      cameraX g + Canvas.width (canvas g) + 500
      <= Platform.x p + Platform.width p + slack }.

Definition Inv : Game -> Prop := InvS 0.

End EndlessGen.

(** ** Generated platforms as functions of the draws *)

Module EndlessDraws.
Import Endless.

(** The value of [randomBetween(lo, hi)] when [Math.random()] returns
    [r]. *)
Definition between (r lo hi : Q) : Q := r * (hi - lo) + lo.

(** The platform [addNewPlatform(startX)] pushes on canvas [c] when the
    next draw is [t 0] (used for the width) and the one after it [t 1]
    (used for y), with the generation parameters of the constructor. *)
Definition pushed (c : Canvas.t) (startX : Q) (t : Tape) : Platform.t :=
  Platform.mk startX
    (between (t 1%nat) (Canvas.height c * 0.3) (Canvas.height c * 0.7))
    (between (t 0%nat) 100 300)
    20.

(** [l] is what the loop of [generateInitialPlatforms] pushes from
    [nextX] on tape [t]: per platform one draw for the width, one for y
    and one for the gap added, with the width, to [nextX]. *)
Fixpoint initial_run (c : Canvas.t) (nextX : Q) (t : Tape)
  (l : list Platform.t) : Prop :=
  match l with
  | [] => True
  | p :: l' =>
      p = pushed c nextX t /\
      initial_run c
        (nextX + (Platform.width p + between (t 2%nat) 100 200))
        (drop 3 t) l'
  end.

Definition in_ranges (c : Canvas.t) (p : Platform.t) : Prop :=
  100 <= Platform.width p <= 300 /\
  Canvas.height c * 0.3 <= Platform.y p <= Canvas.height c * 0.7 /\
  Platform.height p = 20.

End EndlessDraws.

(** ** Concrete runs *)

(** The endless game before [generateInitialPlatforms], in a window of
    the given size. *)
Definition blank (innerWidth innerHeight : Q) : Endless.Game :=
  Endless.mkGame (Canvas.mk innerWidth innerHeight) 0 0
    (Endless.Player.mk (innerWidth / 3) 100 32 48 0 0 false 5 8)
    0.5 (-12) (Input.mk false false false) 100 300 100 200 20 [].

Definition game_of (r : option (Endless.Game * Tape)) (d : Endless.Game)
  : Endless.Game :=
  match r with
  | Some (g, _) => g
  | None => d
  end.

(** A new endless game in a 900 x 600 window, every draw one half. *)
Definition start_game : Endless.Game :=
  Eval vm_compute in
    game_of (Endless.constructor 900 600 half_tape) (blank 900 600).

(** A new endless game in a 900 x 120 window: the player starts below the
    top of the ground platform.  The right arrow is held for eight frames
    of falling ... *)
Definition falling_game : Endless.Game :=
  Eval vm_compute in
    game_of (bind (Endless.constructor 900 120)
               (Endless.run (KeyDown "ArrowRight" :: repeat Frame 8))
               half_tape)
            (blank 900 120).

(** ... and the ninth frame takes the player past the bottom. *)
Definition fallen_game : Endless.Game :=
  Eval vm_compute in
    game_of (Endless.update falling_game half_tape) (blank 900 120).

(** The frame after [start_game]. *)
Definition next_game : Endless.Game :=
  Eval vm_compute in
    game_of (Endless.update start_game half_tape) (blank 900 600).

(** ** The shape of the platform list of the endless variant *)

Module EndlessLayout.
Import Endless.

(** Each platform of the list starts a sampled gap after the one before. *)
Definition chain (l : list Platform.t) : Prop :=
  match l with
  | [] => True
  | p :: l' => EndlessGen.chained p l'
  end.

(** The list is the ground platform, if it is still retained, followed by
    a non-empty chain of generated platforms. *)
Definition Layout (g : Game) : Prop :=
  exists gr ch,
    platforms g = gr ++ ch /\
    (gr = [] \/ gr = [EndlessGen.ground (canvas g)]) /\
    ch <> [] /\
    Forall (EndlessGen.generated (canvas g)) ch /\
    chain ch.

End EndlessLayout.

(** * Proofs *)

(** ** Comparisons *)

Lemma Qltb_lt (a b : Q) : Qltb a b = true <-> a < b.
Proof. unfold Qltb, Qlt. apply Z.ltb_lt. Qed.

Lemma Qltb_ge (a b : Q) : Qltb a b = false <-> b <= a.
Proof. unfold Qltb, Qle. apply Z.ltb_ge. Qed.

Lemma last_elem_snoc {A : Type} (l : list A) (a : A) :
  last_elem (l ++ [a]) = Some a.
Proof.
  unfold last_elem. rewrite length_app. simpl.
  replace (List.length l + 1 - 1)%nat with (List.length l) by lia.
  rewrite nth_error_app2 by lia. now rewrite Nat.sub_diag.
Qed.

(** ** The collision step *)

Lemma endless_overlaps_iff p q :
  Endless.overlaps p q = true <-> EndlessRule.overlap p q.
Proof.
  unfold Endless.overlaps, EndlessRule.overlap.
  rewrite !andb_true_iff, !Qltb_lt. tauto.
Qed.

Lemma endless_landing_iff p q :
  Endless.landing p q = true <->
  0 < Endless.Player.velocityY p /\
  EndlessRule.previous_bottom p <= Platform.y q.
Proof.
  unfold Endless.landing, EndlessRule.previous_bottom.
  now rewrite andb_true_iff, Qltb_lt, Qle_bool_iff.
Qed.

Lemma endless_collide_lands p q :
  EndlessRule.lands p q -> Endless.collide p q = EndlessRule.snapped p q.
Proof.
  intros (Ho & Hv & Hb). unfold Endless.collide.
  apply endless_overlaps_iff in Ho. rewrite Ho.
  assert (Hl : Endless.landing p q = true)
    by (apply endless_landing_iff; auto).
  now rewrite Hl.
Qed.

Lemma endless_collide_misses p q :
  ~ EndlessRule.lands p q -> Endless.collide p q = p.
Proof.
  intros Hn. unfold Endless.collide.
  destruct (Endless.overlaps p q) eqn:Ho; [| reflexivity].
  destruct (Endless.landing p q) eqn:Hl; [| reflexivity].
  exfalso. apply Hn. apply endless_overlaps_iff in Ho.
  apply endless_landing_iff in Hl. unfold EndlessRule.lands. tauto.
Qed.

Lemma fixed_overlaps_iff p q :
  Fixed.overlaps p q = true <-> FixedRule.overlap p q.
Proof.
  unfold Fixed.overlaps, FixedRule.overlap.
  rewrite !andb_true_iff, !Qltb_lt. tauto.
Qed.

Lemma fixed_landing_iff p q :
  Fixed.landing p q = true <->
  0 < Fixed.Player.velocityY p /\
  FixedRule.previous_bottom p <= Platform.y q.
Proof.
  unfold Fixed.landing, FixedRule.previous_bottom.
  now rewrite andb_true_iff, Qltb_lt, Qle_bool_iff.
Qed.

Lemma fixed_collide_lands p q :
  FixedRule.lands p q -> Fixed.collide p q = FixedRule.snapped p q.
Proof.
  intros (Ho & Hv & Hb). unfold Fixed.collide.
  apply fixed_overlaps_iff in Ho. rewrite Ho.
  assert (Hl : Fixed.landing p q = true) by (apply fixed_landing_iff; auto).
  now rewrite Hl.
Qed.

Lemma fixed_collide_misses p q :
  ~ FixedRule.lands p q -> Fixed.collide p q = p.
Proof.
  intros Hn. unfold Fixed.collide.
  destruct (Fixed.overlaps p q) eqn:Ho; [| reflexivity].
  destruct (Fixed.landing p q) eqn:Hl; [| reflexivity].
  exfalso. apply Hn. apply fixed_overlaps_iff in Ho.
  apply fixed_landing_iff in Hl. unfold FixedRule.lands. tauto.
Qed.

(** *** The landing rule over doubles *)





(** Where rounding decides the test: a player whom the code itself has
    put on the second platform of a 800 x 731 window (y = platform.y -
    height, velocityY 0) is moved down by 0.5; the previous bottom edge
    the code computes is 511.70000000000005, above the platform's
    511.7 only in exact arithmetic, so the player is not landed. *)
Lemma doubles_landing_test_is_on_computed_values :
  let q := PlatformD.mk (800 * 0.3) (731 * 0.7) 200 20 in
  let g :=
    FixedD.mkGame (CanvasD.mk 800 731)
      (FixedD.Player.mk 300 (PlatformD.y q - 48) 32 48 0 0 false)
      0.5 (-12) 5 (Input.mk false false false)
      (FixedD.platforms (FixedD.constructor 800 731)) in
  nth_error (FixedD.platforms g) 1 = Some q /\
  FixedD.Player.isJumping (FixedD.player (FixedD.update g)) = true /\
  FixedD.Player.velocityY (FixedD.player (FixedD.update g)) = 0.5%float /\
  (FixedRuleD.previous_bottom
     (FixedD.player (FixedD.clampToCanvas (FixedD.movePlayer g)))
   <=? PlatformD.y q)%float = false.
Proof. vm_compute. repeat split. Qed.




(** C10: in both variants the overlap test is the conjunction of four
    strict comparisons, so a player rectangle that only touches a platform
    along an edge or at a corner does not overlap it, and the platform
    leaves the player unchanged. *)
Theorem touching_is_not_colliding :
  (forall p q,
      (Endless.overlaps p q = true <-> EndlessRule.overlap p q) /\
      (EndlessRule.touches p q ->
       Endless.overlaps p q = false /\ Endless.collide p q = p)) /\
  (forall p q,
      (Fixed.overlaps p q = true <-> FixedRule.overlap p q) /\
      (FixedRule.touches p q ->
       Fixed.overlaps p q = false /\ Fixed.collide p q = p)).
Proof.
  split; intros p q; split.
  - apply endless_overlaps_iff.
  - intros Ht.
    assert (Hno : Endless.overlaps p q = false).
    { destruct (Endless.overlaps p q) eqn:Ho; [| reflexivity].
      apply endless_overlaps_iff in Ho. destruct Ho as (H1 & H2 & H3 & H4).
      exfalso. destruct Ht as [E | [E | [E | E]]]; lra. }
    split; [exact Hno |]. unfold Endless.collide. now rewrite Hno.
  - apply fixed_overlaps_iff.
  - intros Ht.
    assert (Hno : Fixed.overlaps p q = false).
    { destruct (Fixed.overlaps p q) eqn:Ho; [| reflexivity].
      apply fixed_overlaps_iff in Ho. destruct Ho as (H1 & H2 & H3 & H4).
      exfalso. destruct Ht as [E | [E | [E | E]]]; lra. }
    split; [exact Hno |]. unfold Fixed.collide. now rewrite Hno.
Qed.

Lemma touching_is_not_colliding_witness :
  Fixed.collide (Fixed.Player.mk 10 52 32 48 0 0.5 true) ledge
  = Fixed.Player.mk 10 52 32 48 0 0.5 true.
Proof.
  refine (proj2 (proj2 (proj2 touching_is_not_colliding
            (Fixed.Player.mk 10 52 32 48 0 0.5 true) ledge) _)).
  left. reflexivity.
Defined.

(** ** The fixed variant *)

Lemma fixed_collide_x p q :
  Fixed.Player.x (Fixed.collide p q) = Fixed.Player.x p /\
  Fixed.Player.width (Fixed.collide p q) = Fixed.Player.width p.
Proof.
  unfold Fixed.collide.
  destruct (Fixed.overlaps p q), (Fixed.landing p q); now simpl.
Qed.

Lemma fixed_fold_collide_x l : forall p,
  Fixed.Player.x (fold_left Fixed.collide l p) = Fixed.Player.x p /\
  Fixed.Player.width (fold_left Fixed.collide l p) = Fixed.Player.width p.
Proof.
  induction l as [| q l IH]; intros p; simpl; [now split |].
  destruct (IH (Fixed.collide p q)) as [Hx Hw].
  destruct (fixed_collide_x p q) as [Hx' Hw'].
  split; congruence.
Qed.

Lemma fixed_checkCollisions_x g :
  Fixed.Player.x (Fixed.player (Fixed.checkCollisions g))
  = Fixed.Player.x (Fixed.player g) /\
  Fixed.Player.width (Fixed.player (Fixed.checkCollisions g))
  = Fixed.Player.width (Fixed.player g) /\
  Fixed.canvas (Fixed.checkCollisions g) = Fixed.canvas g.
Proof.
  unfold Fixed.checkCollisions. simpl.
  destruct (fixed_fold_collide_x (Fixed.platforms g)
              (Fixed.Player.set_isJumping (Fixed.player g) true)) as [Hx Hw].
  simpl in Hx, Hw. auto.
Qed.

Lemma fixed_clamp_bounds g :
  Fixed.Player.width (Fixed.player g) <= Canvas.width (Fixed.canvas g) ->
  let g' := Fixed.clampToCanvas g in
  0 <= Fixed.Player.x (Fixed.player g') /\
  Fixed.Player.x (Fixed.player g') + Fixed.Player.width (Fixed.player g')
  <= Canvas.width (Fixed.canvas g') /\
  Fixed.Player.width (Fixed.player g') = Fixed.Player.width (Fixed.player g) /\
  Fixed.canvas g' = Fixed.canvas g.
Proof.
  intros Hw. unfold Fixed.clampToCanvas.
  destruct (Qltb (Fixed.Player.x (Fixed.player g)) 0) eqn:E0; simpl.
  - match goal with |- context [Qltb ?a ?b] => destruct (Qltb a b) eqn:E1 end;
      simpl.
    + repeat split; auto; lra.
    + apply Qltb_ge in E1. repeat split; auto; lra.
  - apply Qltb_ge in E0.
    match goal with |- context [Qltb ?a ?b] => destruct (Qltb a b) eqn:E1 end;
      simpl.
    + repeat split; auto; lra.
    + apply Qltb_ge in E1. repeat split; auto; lra.
Qed.

Lemma fixed_clamp_width g :
  Fixed.Player.width (Fixed.player (Fixed.clampToCanvas g))
  = Fixed.Player.width (Fixed.player g).
Proof.
  unfold Fixed.clampToCanvas.
  repeat match goal with |- context [if ?b then _ else _] =>
    destruct b end; now simpl.
Qed.

Lemma fixed_movePlayer_frame g :
  Fixed.Player.width (Fixed.player (Fixed.movePlayer g))
  = Fixed.Player.width (Fixed.player g) /\
  Fixed.canvas (Fixed.movePlayer g) = Fixed.canvas g /\
  Fixed.platforms (Fixed.movePlayer g) = Fixed.platforms g.
Proof.
  unfold Fixed.movePlayer.
  repeat match goal with |- context [if ?b then _ else _] =>
    destruct b end; now simpl.
Qed.

Lemma fixed_update_platforms g :
  Fixed.platforms (Fixed.update g) = Fixed.platforms g.
Proof.
  unfold Fixed.update, Fixed.checkCollisions, Fixed.clampToCanvas. simpl.
  apply fixed_movePlayer_frame.
Qed.

Lemma fixed_handleResize_three w h g :
  List.length (Fixed.platforms g) = 3%nat ->
  exists g', Fixed.handleResize w h g = Some g' /\
             List.length (Fixed.platforms g') = 3%nat /\
             Fixed.player g' = Fixed.player g.
Proof.
  intros Hlen. unfold Fixed.handleResize. simpl.
  destruct (Fixed.platforms g) as [| a [| b [| c [| d l]]]];
    try discriminate.
  simpl. eexists. repeat split.
Qed.

Lemma fixed_handle_input_frame e g g' :
  Fixed.handle e g = Some g' -> e <> Frame ->
  (forall w h, e <> Resize w h) ->
  Fixed.platforms g' = Fixed.platforms g /\ Fixed.player g' = Fixed.player g.
Proof.
  intros H Hf Hr. destruct e; simpl in H.
  - injection H as <-. unfold Fixed.handleKeyDown.
    repeat match goal with |- context [String.eqb ?a ?b] =>
      destruct (String.eqb a b) end; now simpl.
  - injection H as <-. unfold Fixed.handleKeyUp.
    repeat match goal with |- context [String.eqb ?a ?b] =>
      destruct (String.eqb a b) end; now simpl.
  - injection H as <-. unfold Fixed.handleTouch.
    repeat match goal with |- context [Qltb ?a ?b] =>
      destruct (Qltb a b) end; now simpl.
  - injection H as <-. now simpl.
  - exfalso. eapply Hr. reflexivity.
  - now exfalso.
Qed.

(** What every reachable state of the fixed variant satisfies. *)
Lemma fixed_reachable_inv g :
  Fixed.Reachable g ->
  List.length (Fixed.platforms g) = 3%nat /\
  Fixed.Player.width (Fixed.player g) = 32.
Proof.
  induction 1 as [w h | e g g' Hr [IHl IHw] He].
  - now simpl.
  - destruct e.
    1-4: destruct (fixed_handle_input_frame _ g g' He) as [-> ->];
      [discriminate | discriminate | now split].
    + simpl in He.
      destruct (fixed_handleResize_three innerWidth innerHeight g IHl)
        as (g2 & E & Hl & Hp).
      rewrite E in He. injection He as <-. rewrite Hp. now split.
    + simpl in He. injection He as <-. split.
      * now rewrite fixed_update_platforms.
      * unfold Fixed.update.
        destruct (fixed_checkCollisions_x
                    (Fixed.clampToCanvas (Fixed.movePlayer g)))
          as (_ & -> & _).
        rewrite fixed_clamp_width, (proj1 (fixed_movePlayer_frame g)).
        exact IHw.
Qed.

(** C6: in the fixed variant the platform list has exactly three elements
    in every reachable state: three at construction, every event handler
    (keys, touches, resize, frame) runs to completion and leaves a list of
    three, and the resize handler never fails and only re-positions the
    three: width and y of the ground, x and y of the two others. *)
Theorem fixed_three_platforms :
  forall g, Fixed.Reachable g ->
    List.length (Fixed.platforms g) = 3%nat /\
    (forall e, exists g', Fixed.handle e g = Some g' /\
                          List.length (Fixed.platforms g') = 3%nat) /\
    (forall w h, exists a b c g',
        Fixed.platforms g = [a; b; c] /\
        Fixed.handleResize w h g = Some g' /\
        Fixed.platforms g'
        = [ Platform.mk (Platform.x a) (h - 50) w (Platform.height a);
            Platform.mk (w * 0.3) (h * 0.7) (Platform.width b)
                        (Platform.height b);
            Platform.mk (w * 0.1) (h * 0.5) (Platform.width c)
                        (Platform.height c) ]).
Proof.
  intros g Hr. destruct (fixed_reachable_inv g Hr) as [Hl _].
  split; [exact Hl |]. split.
  - intros e.
    assert (Hex : exists g', Fixed.handle e g = Some g').
    { destruct e; simpl; eauto.
      destruct (fixed_handleResize_three innerWidth innerHeight g Hl)
        as (g2 & E & _). eauto. }
    destruct Hex as [g' He]. exists g'. split; [exact He |].
    apply (fixed_reachable_inv g'). now apply Fixed.reach_event with e g.
  - intros w h. unfold Fixed.handleResize. simpl.
    destruct (Fixed.platforms g) as [| a [| b [| c [| d l]]]];
      try discriminate.
    exists a, b, c. eexists. split; [reflexivity |]. simpl.
    split; reflexivity.
Qed.

Lemma fixed_three_platforms_witness :
  List.length (Fixed.platforms (Fixed.constructor 800 600)) = 3%nat.
Proof.
  exact (proj1 (fixed_three_platforms (Fixed.constructor 800 600)
                  (Fixed.reach_new 800 600))).
Defined.

(** C9, as stated, fails: in a canvas narrower than the player (width 20
    against 32) the first frame puts the player at x = -12. *)
Lemma fixed_narrow_canvas_negative_x :
  Fixed.Reachable (Fixed.constructor 20 600) /\
  ~ 0 <= Fixed.Player.x (Fixed.player (Fixed.update (Fixed.constructor 20 600))).
Proof.
  split; [constructor |]. vm_compute. intros H. now apply H.
Qed.

(** C9, amended: in the fixed variant, after every per-frame update made
    while the canvas is at least as wide as the player (32), the player is
    horizontally within the canvas: the update clamps x after position
    integration and collision resolution leaves x unchanged. *)
Theorem fixed_player_within_canvas :
  forall g, Fixed.Reachable g ->
    32 <= Canvas.width (Fixed.canvas g) ->
    let clamped := Fixed.clampToCanvas (Fixed.movePlayer g) in
    let g' := Fixed.update g in
    Fixed.Player.x (Fixed.player g') = Fixed.Player.x (Fixed.player clamped) /\
    0 <= Fixed.Player.x (Fixed.player g') /\
    Fixed.Player.x (Fixed.player g') + Fixed.Player.width (Fixed.player g')
    <= Canvas.width (Fixed.canvas g').
Proof.
  intros g Hr Hw clamped g'. subst clamped g'. unfold Fixed.update.
  destruct (fixed_reachable_inv g Hr) as [_ Hpw].
  destruct (fixed_movePlayer_frame g) as (Hmw & Hmc & _).
  destruct (fixed_clamp_bounds (Fixed.movePlayer g)) as (H0 & H1 & H2 & H3).
  { rewrite Hmw, Hmc, Hpw. exact Hw. }
  destruct (fixed_checkCollisions_x
              (Fixed.clampToCanvas (Fixed.movePlayer g))) as (-> & -> & ->).
  auto.
Qed.

Lemma fixed_player_within_canvas_witness :
  0 <= Fixed.Player.x (Fixed.player (Fixed.update (Fixed.constructor 800 600))).
Proof.
  refine (proj1 (proj2 (fixed_player_within_canvas (Fixed.constructor 800 600)
            (Fixed.reach_new 800 600) _))).
  unfold Qle. simpl. lia.
Defined.

(** C2, as stated, fails for the fixed variant: in a window 120 high the
    player starts below the ground platform's top, falls past the bottom
    of the canvas on the ninth frame, and is not put back at the start. *)
Lemma fixed_update_has_no_fall_reset :
  exists g, Fixed.run (repeat Frame 8) (Fixed.constructor 800 120) = Some g /\
    let g' := Fixed.update g in
    Canvas.height (Fixed.canvas g') < Fixed.Player.y (Fixed.player g') /\
    ~ Fixed.Player.y (Fixed.player g') == 100 /\
    ~ Fixed.Player.velocityY (Fixed.player g') == 0.
Proof.
  eexists. split; [vm_compute; reflexivity |].
  vm_compute. repeat split; discriminate.
Qed.

(** ** Platform generation *)

Ltac qarith :=
  unfold Qdiv in *;
  change (/ 3) with (1 # 3) in *;
  change (/ 100) with (1 # 100) in *;
  lra.

Lemma tape_ok_drop k t : tape_ok t -> tape_ok (drop k t).
Proof. intros H n. apply H. Qed.

Lemma tape_ok_skip n : forall t, tape_ok t -> tape_ok (EndlessGen.skip n t).
Proof.
  induction n as [| n IH]; intros t H; simpl; [exact H |].
  apply IH. now apply tape_ok_drop.
Qed.

Lemma sample_range lo hi v :
  lo <= hi -> EndlessGen.sample lo hi v -> lo <= v <= hi.
Proof.
  intros Hle (r & H0 & H1 & E). rewrite E.
  assert (Hd : 0 <= hi - lo) by lra.
  pose proof (Qmult_le_0_compat _ _ H0 Hd) as Ha.
  assert (Hb : 0 <= (1 - r) * (hi - lo))
    by (apply Qmult_le_0_compat; lra).
  split; [lra |].
  setoid_replace hi with ((1 - r) * (hi - lo) + (r * (hi - lo) + lo)) at 2
    by ring.
  lra.
Qed.

Lemma randomBetween_eq lo hi t :
  Endless.randomBetween lo hi t = Some (t O * (hi - lo) + lo, drop 1 t).
Proof. reflexivity. Qed.

Lemma randomBetween_sample lo hi t :
  tape_ok t -> EndlessGen.sample lo hi (t O * (hi - lo) + lo).
Proof. intros H. exists (t O). destruct (H O). repeat split; auto. Qed.

Lemma addNewPlatform_eq x g t :
  Endless.addNewPlatform x g t
  = Some (Endless.set_platforms g
            (Endless.platforms g ++ [EndlessGen.newPlatform x g t]),
          drop 2 t).
Proof. reflexivity. Qed.

Lemma initialPlatforms_set_platforms n : forall x g l t,
  EndlessGen.initialPlatforms n x (Endless.set_platforms g l) t
  = EndlessGen.initialPlatforms n x g t.
Proof.
  induction n as [| n IH]; intros x g l t; simpl; [reflexivity |].
  f_equal. apply IH.
Qed.

Lemma set_platforms_same g : Endless.set_platforms g (Endless.platforms g) = g.
Proof. now destruct g. Qed.

Lemma generateInitialPlatforms_loop_eq n : forall x g t,
  Endless.generateInitialPlatforms_loop n x g t
  = Some (Endless.set_platforms g
            (Endless.platforms g ++ EndlessGen.initialPlatforms n x g t),
          EndlessGen.skip n t).
Proof.
  induction n as [| n IH]; intros x g t.
  - simpl. rewrite app_nil_r, set_platforms_same. reflexivity.
  - cbn [Endless.generateInitialPlatforms_loop]. unfold bind at 1.
    rewrite addNewPlatform_eq. cbn [Endless.platforms Endless.set_platforms].
    rewrite last_elem_snoc. unfold bind. rewrite randomBetween_eq.
    rewrite IH. rewrite initialPlatforms_set_platforms.
    cbn [Endless.platforms Endless.set_platforms]. rewrite <- app_assoc.
    reflexivity.
Qed.

Lemma generateInitialPlatforms_eq g t :
  Endless.generateInitialPlatforms g t
  = Some (Endless.set_platforms g
            (Endless.platforms g ++
             EndlessGen.ground (Endless.canvas g) ::
             EndlessGen.initialPlatforms 10
               (Canvas.width (Endless.canvas g)) g t),
          EndlessGen.skip 10 t).
Proof.
  unfold Endless.generateInitialPlatforms.
  rewrite generateInitialPlatforms_loop_eq.
  rewrite initialPlatforms_set_platforms.
  cbn [Endless.platforms Endless.set_platforms Endless.canvas].
  rewrite <- app_assoc. reflexivity.
Qed.

Lemma after_gaps_mono n : forall x y,
  x <= y -> EndlessGen.after_gaps n x <= EndlessGen.after_gaps n y.
Proof.
  induction n as [| n IH]; intros x y H; simpl; [exact H |].
  apply IH. lra.
Qed.

Section InitialLayout.

Variable g : Endless.Game.
Hypothesis HminW : Endless.minPlatformWidth g = 100.
Hypothesis HmaxW : Endless.maxPlatformWidth g = 300.
Hypothesis HminG : Endless.minGapWidth g = 100.
Hypothesis HmaxG : Endless.maxGapWidth g = 200.
Hypothesis HpH : Endless.platformHeight g = 20.
Hypothesis Hch : 0 <= Canvas.height (Endless.canvas g).

Lemma newPlatform_generated x t :
  tape_ok t ->
  EndlessGen.generated (Endless.canvas g) (EndlessGen.newPlatform x g t).
Proof.
  intros Ht. unfold EndlessGen.generated, EndlessGen.newPlatform.
  cbn [Platform.width Platform.y Platform.height Platform.x].
  rewrite HminW, HmaxW, HpH.
  assert (Sw : EndlessGen.sample 100 300 (t 0%nat * (300 - 100) + 100))
    by now apply randomBetween_sample.
  assert (Sy : EndlessGen.sample (Canvas.height (Endless.canvas g) * 0.3)
                 (Canvas.height (Endless.canvas g) * 0.7)
                 (t 1%nat * (Canvas.height (Endless.canvas g) * 0.7
                             - Canvas.height (Endless.canvas g) * 0.3)
                  + Canvas.height (Endless.canvas g) * 0.3)).
  { exists (t 1%nat). destruct (Ht 1%nat). repeat split; auto. }
  split; [exact Sw |]. split; [apply sample_range; [lra | exact Sw] |].
  split; [exact Sy |]. split; [apply sample_range; [lra | exact Sy] |].
  reflexivity.
Qed.

Lemma gap_sample t x w :
  tape_ok t ->
  let gap := t 2%nat * (Endless.maxGapWidth g - Endless.minGapWidth g)
             + Endless.minGapWidth g in
  EndlessGen.sample 100 200 (x + (w + gap) - (x + w)) /\
  100 <= x + (w + gap) - (x + w) <= 200.
Proof.
  intros Ht gap. subst gap. rewrite HminG, HmaxG.
  assert (S : EndlessGen.sample 100 200 (x + (w + (t 2%nat * (200 - 100) + 100))
                                         - (x + w))).
  { exists (t 2%nat). destruct (Ht 2%nat). repeat split; auto. ring. }
  split; [exact S | apply sample_range; [lra | exact S]].
Qed.

Lemma initialPlatforms_length n : forall x t,
  List.length (EndlessGen.initialPlatforms n x g t) = n.
Proof. induction n as [| n IH]; intros x t; simpl; [| rewrite IH]; reflexivity. Qed.

Lemma initialPlatforms_generated n : forall x t,
  tape_ok t ->
  Forall (EndlessGen.generated (Endless.canvas g))
         (EndlessGen.initialPlatforms n x g t).
Proof.
  induction n as [| n IH]; intros x t Ht; simpl; constructor.
  - now apply newPlatform_generated.
  - apply IH. now apply tape_ok_drop.
Qed.

Lemma initialPlatforms_chained n : forall prev x t,
  tape_ok t ->
  EndlessGen.sample 100 200
    (x - (Platform.x prev + Platform.width prev)) ->
  100 <= x - (Platform.x prev + Platform.width prev) <= 200 ->
  EndlessGen.chained prev (EndlessGen.initialPlatforms n x g t).
Proof.
  induction n as [| n IH]; intros prev x t Ht Hs Hr; simpl; [exact I |].
  split; [split; assumption |].
  apply IH; [now apply tape_ok_drop | |];
    cbn [EndlessGen.newPlatform Platform.x Platform.width];
    now apply gap_sample.
Qed.

Lemma initialPlatforms_first n x t :
  tape_ok t ->
  exists first rest,
    EndlessGen.initialPlatforms (S n) x g t = first :: rest /\
    List.length rest = n /\ Platform.x first = x /\
    EndlessGen.chained first rest.
Proof.
  intros Ht. simpl. eexists. eexists. split; [reflexivity |].
  split; [apply initialPlatforms_length |]. split; [reflexivity |].
  apply initialPlatforms_chained; [now apply tape_ok_drop | |];
    cbn [EndlessGen.newPlatform Platform.x Platform.width];
    now apply gap_sample.
Qed.

Lemma initialPlatforms_last n : forall x t,
  tape_ok t ->
  exists l p,
    EndlessGen.initialPlatforms (S n) x g t = l ++ [p] /\
    EndlessGen.after_gaps n x <= Platform.x p /\
    100 <= Platform.width p.
Proof.
  induction n as [| n IH]; intros x t Ht.
  - exists [], (EndlessGen.newPlatform x g t). split; [reflexivity |].
    split; [simpl; lra |].
    apply (newPlatform_generated x t Ht).
  - destruct (IH (x + (Platform.width (EndlessGen.newPlatform x g t)
                       + (t 2%nat * (Endless.maxGapWidth g
                                     - Endless.minGapWidth g)
                          + Endless.minGapWidth g)))
                 (drop 3 t) (tape_ok_drop 3 t Ht)) as (l & p & E & Hx & Hw).
    exists (EndlessGen.newPlatform x g t :: l), p.
    split; [| split; [| exact Hw]].
    + change (EndlessGen.initialPlatforms (S (S n)) x g t)
        with (EndlessGen.newPlatform x g t ::
              EndlessGen.initialPlatforms (S n)
                (x + (Platform.width (EndlessGen.newPlatform x g t)
                      + (t 2%nat * (Endless.maxGapWidth g
                                    - Endless.minGapWidth g)
                         + Endless.minGapWidth g))) g (drop 3 t)).
      rewrite E. reflexivity.
    + eapply Qle_trans; [| exact Hx]. simpl EndlessGen.after_gaps at 1.
      apply after_gaps_mono.
      pose proof (newPlatform_generated x t Ht) as (_ & Hwr & _).
      pose proof (gap_sample t x
                    (Platform.width (EndlessGen.newPlatform x g t)) Ht)
        as (_ & Hg).
      cbv zeta in Hg. lra.
Qed.

End InitialLayout.

(** ** The invariant of the endless variant *)

Ltac endless_fields :=
  cbn [Endless.set_player Endless.set_cameraX Endless.set_distance
       Endless.set_platforms Endless.set_input
       Endless.minPlatformWidth Endless.maxPlatformWidth
       Endless.minGapWidth Endless.maxGapWidth Endless.platformHeight
       Endless.player Endless.canvas Endless.cameraX Endless.distance
       Endless.platforms Endless.input Endless.gravity Endless.jumpForce].

Lemma generateInitialPlatforms_inv g t :
  Endless.minPlatformWidth g = 100 -> Endless.maxPlatformWidth g = 300 ->
  Endless.minGapWidth g = 100 -> Endless.maxGapWidth g = 200 ->
  Endless.platformHeight g = 20 ->
  Endless.Player.speed (Endless.player g) = 5 ->
  0 <= Canvas.width (Endless.canvas g) ->
  0 <= Canvas.height (Endless.canvas g) ->
  Endless.cameraX g = 0 -> Endless.distance g = 0 ->
  Endless.Player.x (Endless.player g) = Canvas.width (Endless.canvas g) / 3 ->
  Endless.platforms g = [] ->
  tape_ok t ->
  exists l,
    Endless.generateInitialPlatforms g t
    = Some (Endless.set_platforms g l, EndlessGen.skip 10 t) /\
    l = EndlessGen.ground (Endless.canvas g) ::
        EndlessGen.initialPlatforms 10 (Canvas.width (Endless.canvas g)) g t /\
    EndlessGen.initial_layout (Endless.canvas g) l /\
    EndlessGen.Inv (Endless.set_platforms g l).
Proof.
  intros HminW HmaxW HminG HmaxG HpH Hsp Hcw Hch Hcam Hdist Hx Hpl Ht.
  eexists. split; [| split; [reflexivity |]].
  { rewrite generateInitialPlatforms_eq, Hpl. reflexivity. }
  split.
  - destruct (initialPlatforms_first g HminG HmaxG 9
                (Canvas.width (Endless.canvas g)) t Ht)
      as (first & rest & E & Hlen & Hfx & Hchain).
    exists first, rest. rewrite E. repeat split; auto.
    rewrite <- E. now apply initialPlatforms_generated.
  - destruct (initialPlatforms_last g HminW HmaxW HminG HmaxG HpH Hch 9
                (Canvas.width (Endless.canvas g)) t Ht)
      as (l & p & E & Hpx & Hpw).
    constructor; endless_fields; auto.
    + rewrite Hcam. lra.
    + rewrite Hcam, Hx. qarith.
    + rewrite Hcam, Hdist. reflexivity.
    + exists (EndlessGen.ground (Endless.canvas g) :: l), p.
      split; [rewrite E; reflexivity |].
      rewrite Hcam. simpl in Hpx. lra.
Qed.

Lemma endless_collide_frame p q :
  Endless.Player.x (Endless.collide p q) = Endless.Player.x p /\
  Endless.Player.speed (Endless.collide p q) = Endless.Player.speed p.
Proof.
  unfold Endless.collide.
  destruct (Endless.overlaps p q), (Endless.landing p q); now simpl.
Qed.

Lemma endless_fold_collide_frame l : forall p,
  Endless.Player.x (fold_left Endless.collide l p) = Endless.Player.x p /\
  Endless.Player.speed (fold_left Endless.collide l p)
  = Endless.Player.speed p.
Proof.
  induction l as [| q l IH]; intros p; simpl; [now split |].
  destruct (IH (Endless.collide p q)) as [Hx Hs].
  destruct (endless_collide_frame p q) as [Hx' Hs'].
  split; congruence.
Qed.

Lemma checkCollisions_inv g :
  EndlessGen.Inv g -> EndlessGen.Inv (Endless.checkCollisions g).
Proof.
  intros [].
  destruct (endless_fold_collide_frame (Endless.platforms g)
              (Endless.Player.set_isJumping (Endless.player g) true))
    as [Hx Hs].
  simpl in Hx, Hs.
  constructor; unfold Endless.checkCollisions;
    endless_fields; auto; congruence.
Qed.

Lemma movePlayer_frame g :
  let g1 := Endless.movePlayer g in
  Endless.set_player g (Endless.player g1) = g1 /\
  Endless.Player.speed (Endless.player g1)
  = Endless.Player.speed (Endless.player g) /\
  (Endless.Player.x (Endless.player g1)
   = Endless.Player.x (Endless.player g)
     + Endless.Player.speed (Endless.player g) \/
   Endless.Player.x (Endless.player g1)
   = Endless.Player.x (Endless.player g)
     + - Endless.Player.speed (Endless.player g) \/
   Endless.Player.x (Endless.player g1)
   = Endless.Player.x (Endless.player g) + 0).
Proof.
  unfold Endless.movePlayer.
  repeat match goal with |- context [if ?b then _ else _] =>
    destruct b end; simpl; auto.
Qed.

Lemma followCamera_cases g :
  let g1 := Endless.followCamera g in
  Endless.set_distance (Endless.set_cameraX g (Endless.cameraX g1))
    (Endless.distance g1) = g1 /\
  ((Canvas.width (Endless.canvas g) / 3 < Endless.Player.x (Endless.player g)
    /\ Endless.cameraX g1
       = Endless.Player.x (Endless.player g)
         - Canvas.width (Endless.canvas g) / 3
    /\ Endless.distance g1 = Math_floor (Endless.cameraX g1 / 100)) \/
   (Endless.Player.x (Endless.player g) <= Canvas.width (Endless.canvas g) / 3
    /\ g1 = g)).
Proof.
  unfold Endless.followCamera.
  destruct (Qltb _ _) eqn:E.
  - apply Qltb_lt in E. split; [reflexivity |]. left. simpl. auto.
  - apply Qltb_ge in E. split; [now destruct g |]. right. auto.
Qed.

Lemma before_platforms_inv g :
  EndlessGen.Inv g ->
  let g1 := Endless.followCamera (Endless.movePlayer g) in
  EndlessGen.InvS 5 g1 /\
  Endless.platforms g1 = Endless.platforms g /\
  Endless.canvas g1 = Endless.canvas g.
Proof.
  intros [] g1.
  destruct (movePlayer_frame g) as (Em & Hs & Hx).
  destruct (followCamera_cases (Endless.movePlayer g)) as (Ef & Hc).
  fold g1 in Ef, Hc. cbv zeta in Hc.
  remember (Endless.player (Endless.movePlayer g)) as pm eqn:Epm.
  rewrite <- Em in Ef, Hc. clearbody g1.
  cbn [Endless.canvas Endless.player Endless.set_player] in Hc.
  destruct inv_last as (l & p & Hl & Hb).
  rewrite inv_speed in Hx.
  assert (Hx5 : Endless.Player.x pm <= Endless.Player.x (Endless.player g) + 5).
  { destruct Hx as [-> | [-> | ->]]; lra. }
  split; [| split]; [| rewrite <- Ef; reflexivity | rewrite <- Ef; reflexivity].
  rewrite <- Ef.
  constructor; endless_fields; auto; try congruence.
  - destruct Hc as [(Hlt & -> & _) | (_ & ->)];
      [qarith | endless_fields; auto].
  - destruct Hc as [(Hlt & -> & _) | (Hle & ->)];
      [qarith | endless_fields; qarith].
  - destruct Hc as [(_ & _ & Hd) | (_ & ->)]; [exact Hd | exact inv_dist].
  - exists l, p. split; [exact Hl |].
    destruct Hc as [(Hlt & -> & _) | (Hle & ->)];
      [qarith | endless_fields; qarith].
Qed.

Lemma updatePlatforms_inv g t :
  EndlessGen.InvS 5 g -> tape_ok t ->
  exists l prev added t',
    Endless.platforms g = l ++ [prev] /\
    filter (Endless.retained g) (Endless.platforms g)
    = filter (Endless.retained g) l ++ [prev] /\
    Endless.updatePlatforms g t
    = Some (Endless.set_platforms g
              (filter (Endless.retained g) (Endless.platforms g) ++ added),
            t') /\
    tape_ok t' /\
    (added = [] \/
     exists p, added = [p] /\
               EndlessGen.generated (Endless.canvas g) p /\
               EndlessGen.follows prev p) /\
    EndlessGen.Inv
      (Endless.set_platforms g
         (filter (Endless.retained g) (Endless.platforms g) ++ added)).
Proof.
  intros [] Ht. destruct inv_last as (l & prev & Hl & Hb).
  assert (Hkeep : Endless.retained g prev = true).
  { unfold Endless.retained. apply Qltb_lt. lra. }
  assert (Hf : filter (Endless.retained g) (Endless.platforms g)
               = filter (Endless.retained g) l ++ [prev]).
  { rewrite Hl, filter_app. cbn [filter]. rewrite Hkeep. reflexivity. }
  exists l, prev.
  unfold Endless.updatePlatforms. endless_fields.
  rewrite Hf, last_elem_snoc.
  destruct (Qltb _ _) eqn:E.
  - unfold bind. rewrite randomBetween_eq, addNewPlatform_eq. endless_fields.
    eexists. eexists. split; [exact Hl |]. split; [reflexivity |].
    split; [reflexivity |].
    split; [repeat apply tape_ok_drop; exact Ht |].
    pose proof (newPlatform_generated _ inv_minW inv_maxW inv_pH inv_ch
                  (Platform.x prev + Platform.width prev
                   + (t O * (Endless.maxGapWidth g - Endless.minGapWidth g)
                      + Endless.minGapWidth g))
                  (drop 1 t) (tape_ok_drop 1 t Ht)) as Hgen.
    assert (Hs : EndlessGen.sample 100 200
                   (Platform.x prev + Platform.width prev
                    + (t O * (Endless.maxGapWidth g - Endless.minGapWidth g)
                       + Endless.minGapWidth g)
                    - (Platform.x prev + Platform.width prev))).
    { rewrite inv_minG, inv_maxG. exists (t O). destruct (Ht O).
      repeat split; auto. ring. }
    pose proof (sample_range 100 200 _ ltac:(lra) Hs) as Hr.
    split.
    + right. eexists. split; [reflexivity |]. split; [| split]; assumption.
    + constructor; endless_fields; auto.
      eexists. eexists. split; [reflexivity |].
      destruct Hgen as (_ & Hw & _).
      cbn [EndlessGen.newPlatform Platform.x Platform.width] in Hw |- *.
      endless_fields.
      rewrite ?inv_minW, ?inv_maxW, ?inv_minG, ?inv_maxG in Hw, Hr |- *.
      lra.
  - apply Qltb_ge in E. exists [], t. rewrite app_nil_r.
    split; [exact Hl |]. split; [reflexivity |]. split; [reflexivity |].
    split; [exact Ht |]. split; [now left |].
    constructor; endless_fields; auto.
    exists (filter (Endless.retained g) l), prev. split; [reflexivity |]. lra.
Qed.

Lemma resetGame_inv g t :
  EndlessGen.Inv g -> tape_ok t ->
  exists g',
    Endless.resetGame g t = Some (g', EndlessGen.skip 10 t) /\
    EndlessGen.Inv g' /\
    EndlessGen.initial_layout (Endless.canvas g) (Endless.platforms g') /\
    Endless.canvas g' = Endless.canvas g /\
    Endless.cameraX g' = 0 /\ Endless.distance g' = 0 /\
    Endless.Player.x (Endless.player g')
    = Canvas.width (Endless.canvas g) / 3 /\
    Endless.Player.y (Endless.player g') = 100 /\
    Endless.Player.velocityX (Endless.player g') = 0 /\
    Endless.Player.velocityY (Endless.player g') = 0.
Proof.
  intros [] Ht. unfold Endless.resetGame.
  match goal with |- context [Endless.generateInitialPlatforms ?a t] =>
    destruct (generateInitialPlatforms_inv a t) as (l & E & _ & Hlay & Hinv);
      auto
  end.
  rewrite E. eexists. split; [reflexivity |]. split; [exact Hinv |].
  split; [exact Hlay |]. repeat split.
Qed.

Lemma update_inv g t :
  EndlessGen.Inv g -> tape_ok t ->
  exists g' t',
    Endless.update g t = Some (g', t') /\ EndlessGen.Inv g' /\ tape_ok t'.
Proof.
  intros Hi Ht.
  destruct (before_platforms_inv g Hi) as (H1 & _ & _).
  destruct (updatePlatforms_inv _ t H1 Ht)
    as (l & prev & added & t1 & _ & _ & E & Ht1 & _ & H2).
  apply checkCollisions_inv in H2.
  unfold Endless.update, Endless.beforeFallCheck, bind. rewrite E.
  unfold ret. destruct (Endless.fellOff _).
  - destruct (resetGame_inv _ t1 H2 Ht1) as (g' & Er & Hi' & _).
    rewrite Er. exists g', (EndlessGen.skip 10 t1).
    split; [reflexivity |]. split; [exact Hi' | now apply tape_ok_skip].
  - eexists. eexists. split; [reflexivity |]. split; assumption.
Qed.

Lemma handle_input_frame e g t :
  e <> Frame ->
  exists i, Endless.handle e g t = Some (Endless.set_input g i, t).
Proof.
  intros Hf. destruct e; simpl; unfold ret.
  - unfold Endless.handleKeyDown.
    repeat match goal with |- context [String.eqb ?a ?b] =>
      destruct (String.eqb a b) end; eauto.
    exists (Endless.input g). now destruct g.
  - unfold Endless.handleKeyUp.
    repeat match goal with |- context [String.eqb ?a ?b] =>
      destruct (String.eqb a b) end; eauto.
    exists (Endless.input g). now destruct g.
  - unfold Endless.handleTouch.
    repeat match goal with |- context [Qltb ?a ?b] =>
      destruct (Qltb a b) end; eauto.
  - unfold Endless.handleTouchEnd. eauto.
  - exists (Endless.input g). now destruct g.
  - now exfalso.
Qed.

Lemma set_input_inv g i : EndlessGen.Inv g -> EndlessGen.Inv (Endless.set_input g i).
Proof. intros []. constructor; endless_fields; auto. Qed.

Lemma handle_inv e g t :
  EndlessGen.Inv g -> tape_ok t ->
  exists g' t',
    Endless.handle e g t = Some (g', t') /\ EndlessGen.Inv g' /\ tape_ok t'.
Proof.
  intros Hi Ht. destruct e;
    try (match goal with |- context [Endless.handle ?e _ _] =>
           destruct (handle_input_frame e g t ltac:(discriminate)) as [i ->]
         end;
         eexists; eexists; split; [reflexivity |];
         split; [now apply set_input_inv | exact Ht]).
  simpl. now apply update_inv.
Qed.

Lemma constructor_inv w h t :
  0 <= w -> 0 <= h -> tape_ok t ->
  exists g,
    Endless.constructor w h t = Some (g, EndlessGen.skip 10 t) /\
    EndlessGen.Inv g /\
    Endless.canvas g = Canvas.mk w h /\
    EndlessGen.initial_layout (Canvas.mk w h) (Endless.platforms g).
Proof.
  intros Hw Hh Ht. unfold Endless.constructor.
  match goal with |- context [Endless.generateInitialPlatforms ?a t] =>
    destruct (generateInitialPlatforms_inv a t) as (l & E & _ & Hlay & Hinv);
      auto
  end.
  rewrite E. eexists. split; [reflexivity |]. split; [exact Hinv |].
  split; [reflexivity | exact Hlay].
Qed.

Lemma constructor_eq w h t :
  Endless.constructor w h t
  = Some (Endless.set_platforms (blank w h)
            (EndlessGen.ground (Canvas.mk w h) ::
             EndlessGen.initialPlatforms 10 w (blank w h) t),
          EndlessGen.skip 10 t).
Proof.
  unfold Endless.constructor. rewrite generateInitialPlatforms_eq.
  reflexivity.
Qed.

Lemma reachable_inv g t :
  Endless.Reachable g t -> EndlessGen.Inv g /\ tape_ok t.
Proof.
  induction 1 as [w h t0 g t Hw Hh Ht0 E | e g t g' t' Hr [Hi Ht] E].
  - destruct (constructor_inv w h t0 Hw Hh Ht0) as (g0 & E0 & Hi & _).
    rewrite E0 in E. injection E as <- <-.
    split; [exact Hi | exact (tape_ok_skip 10 t0 Ht0)].
  - destruct (handle_inv e g t Hi Ht) as (g2 & t2 & E2 & Hi2 & Ht2).
    rewrite E2 in E. injection E as <- <-. now split.
Qed.

(** ** Frame lemmas that hold in every state *)

Lemma updatePlatforms_frame g t g' t' :
  Endless.updatePlatforms g t = Some (g', t') ->
  exists added,
    g' = Endless.set_platforms g
           (filter (Endless.retained g) (Endless.platforms g) ++ added) /\
    (List.length added <= 1)%nat.
Proof.
  unfold Endless.updatePlatforms. endless_fields.
  destruct (last_elem _) as [lastPlatform |]; [| discriminate].
  destruct (Qltb _ _).
  - unfold bind. rewrite randomBetween_eq, addNewPlatform_eq.
    endless_fields. intros [= <- <-]. eexists. split; [reflexivity |].
    simpl. lia.
  - intros [= <- <-]. exists []. rewrite app_nil_r. split; [reflexivity |].
    simpl. lia.
Qed.

Lemma initialPlatforms_ext n : forall x a b t,
  Endless.canvas a = Endless.canvas b ->
  Endless.minPlatformWidth a = Endless.minPlatformWidth b ->
  Endless.maxPlatformWidth a = Endless.maxPlatformWidth b ->
  Endless.minGapWidth a = Endless.minGapWidth b ->
  Endless.maxGapWidth a = Endless.maxGapWidth b ->
  Endless.platformHeight a = Endless.platformHeight b ->
  EndlessGen.initialPlatforms n x a t = EndlessGen.initialPlatforms n x b t.
Proof.
  induction n as [| n IH]; intros x a b t Hc H1 H2 H3 H4 H5; simpl;
    [reflexivity |].
  unfold EndlessGen.newPlatform. rewrite Hc, H1, H2, H3, H4, H5.
  f_equal. apply IH; assumption.
Qed.

Lemma resetGame_frame g t :
  exists g',
    Endless.resetGame g t = Some (g', EndlessGen.skip 10 t) /\
    Endless.canvas g' = Endless.canvas g /\
    Endless.cameraX g' = 0 /\ Endless.distance g' = 0 /\
    Endless.Player.x (Endless.player g')
    = Canvas.width (Endless.canvas g) / 3 /\
    Endless.Player.y (Endless.player g') = 100 /\
    Endless.Player.velocityX (Endless.player g') = 0 /\
    Endless.Player.velocityY (Endless.player g') = 0 /\
    Endless.platforms g'
    = EndlessGen.ground (Endless.canvas g) ::
      EndlessGen.initialPlatforms 10 (Canvas.width (Endless.canvas g)) g t.
Proof.
  unfold Endless.resetGame. rewrite generateInitialPlatforms_eq.
  eexists. split; [reflexivity |]. endless_fields.
  repeat split.
Qed.

Lemma beforeFallCheck_frame g t g1 t1 :
  Endless.beforeFallCheck g t = Some (g1, t1) ->
  Endless.canvas g1 = Endless.canvas g /\
  Endless.cameraX g1
  = Endless.cameraX (Endless.followCamera (Endless.movePlayer g)) /\
  Endless.Player.x (Endless.player g1)
  = Endless.Player.x (Endless.player (Endless.movePlayer g)) /\
  exists added,
    Endless.platforms g1
    = filter (Endless.retained (Endless.followCamera (Endless.movePlayer g)))
        (Endless.platforms g) ++ added /\
    (List.length added <= 1)%nat.
Proof.
  unfold Endless.beforeFallCheck, bind.
  destruct (Endless.updatePlatforms _ t) as [[g2 t2] |] eqn:E;
    [| discriminate].
  intros [= <- <-].
  destruct (updatePlatforms_frame _ _ _ _ E) as (added & -> & Hlen).
  destruct (movePlayer_frame g) as (Em & _).
  destruct (followCamera_cases (Endless.movePlayer g)) as (Ef & _).
  cbv zeta in Em, Ef.
  unfold Endless.checkCollisions. endless_fields.
  destruct (endless_fold_collide_frame
    (filter (Endless.retained (Endless.followCamera (Endless.movePlayer g)))
       (Endless.platforms (Endless.followCamera (Endless.movePlayer g)))
     ++ added)
    (Endless.Player.set_isJumping
       (Endless.player (Endless.followCamera (Endless.movePlayer g))) true))
    as [Hx _].
  rewrite Hx. clear Hx.
  assert (Hp : Endless.platforms (Endless.followCamera (Endless.movePlayer g))
               = Endless.platforms g)
    by (rewrite <- Ef, <- Em; reflexivity).
  assert (Hc : Endless.canvas (Endless.followCamera (Endless.movePlayer g))
               = Endless.canvas g)
    by (rewrite <- Ef, <- Em; reflexivity).
  assert (Hpl : Endless.player (Endless.followCamera (Endless.movePlayer g))
                = Endless.player (Endless.movePlayer g))
    by (rewrite <- Ef; reflexivity).
  rewrite Hp, Hc, Hpl. repeat split; auto.
  exists added. auto.
Qed.

Lemma half_tape_ok : tape_ok half_tape.
Proof. intros n. unfold half_tape. split; lra. Qed.

Lemma start_game_reachable :
  Endless.Reachable start_game (EndlessGen.skip 10 half_tape).
Proof.
  apply Endless.reach_new with (innerWidth := 900) (innerHeight := 600)
                               (t0 := half_tape).
  - lra.
  - lra.
  - exact half_tape_ok.
  - vm_compute. reflexivity.
Qed.

Lemma run_reachable es : forall g t g' t',
  Endless.Reachable g t -> Endless.run es g t = Some (g', t') ->
  Endless.Reachable g' t'.
Proof.
  induction es as [| e es IH]; intros g t g' t' Hr E; simpl in E.
  - injection E as <- <-. exact Hr.
  - unfold bind in E.
    destruct (Endless.handle e g t) as [[g1 t1] |] eqn:E1; [| discriminate].
    eapply IH; [| exact E]. eapply Endless.reach_event; eassumption.
Qed.

Lemma falling_game_reachable : Endless.Reachable falling_game half_tape.
Proof.
  destruct (constructor_inv 900 120 half_tape) as (g0 & E0 & _);
    [lra | lra | exact half_tape_ok |].
  apply run_reachable
    with (es := KeyDown "ArrowRight" :: repeat Frame 8) (g := g0)
         (t := EndlessGen.skip 10 half_tape).
  - eapply Endless.reach_new with (innerWidth := 900) (innerHeight := 120);
      [| | exact half_tape_ok | exact E0]; lra.
  - vm_compute in E0. injection E0 as <-. vm_compute. reflexivity.
Qed.

Lemma beforeFallCheck_inv g t :
  EndlessGen.Inv g -> tape_ok t ->
  exists g1 t1,
    Endless.beforeFallCheck g t = Some (g1, t1) /\
    EndlessGen.Inv g1 /\ tape_ok t1.
Proof.
  intros Hi Ht.
  destruct (before_platforms_inv g Hi) as (H1 & _ & _).
  destruct (updatePlatforms_inv _ t H1 Ht)
    as (l & prev & added & t1 & _ & _ & E & Ht1 & _ & H2).
  apply checkCollisions_inv in H2.
  unfold Endless.beforeFallCheck, bind. rewrite E.
  eexists. eexists. split; [reflexivity |]. split; assumption.
Qed.

Lemma fellOff_true g :
  Endless.fellOff g = true <->
  Canvas.height (Endless.canvas g) < Endless.Player.y (Endless.player g).
Proof. apply Qltb_lt. Qed.

Lemma fellOff_false g :
  Endless.fellOff g = false <->
  Endless.Player.y (Endless.player g) <= Canvas.height (Endless.canvas g).
Proof. apply Qltb_ge. Qed.

Lemma camera_step g :
  let moved := Endless.movePlayer g in
  (Canvas.width (Endless.canvas g) / 3
   < Endless.Player.x (Endless.player moved) /\
   Endless.cameraX (Endless.followCamera moved)
   = Endless.Player.x (Endless.player moved)
     - Canvas.width (Endless.canvas g) / 3) \/
  (Endless.Player.x (Endless.player moved)
   <= Canvas.width (Endless.canvas g) / 3 /\
   Endless.cameraX (Endless.followCamera moved) = Endless.cameraX g).
Proof.
  intros moved. subst moved.
  destruct (movePlayer_frame g) as (Em & _). cbv zeta in Em.
  destruct (followCamera_cases (Endless.movePlayer g)) as (_ & Hc).
  cbv zeta in Hc.
  remember (Endless.followCamera (Endless.movePlayer g)) as g1 eqn:E1.
  remember (Endless.player (Endless.movePlayer g)) as pm eqn:Epm.
  rewrite <- Em in Hc. cbn [Endless.canvas Endless.set_player] in Hc.
  destruct Hc as [(Hlt & Hc & _) | (Hle & ->)]; [left | right]; auto.
Qed.

(** ** The endless variant: the claims *)

(** C8: in the endless variant [distance = floor(cameraX / 100)] holds in
    every reachable state: both are zero at construction and after
    [resetGame], and every event handler, the per-frame update included,
    runs to completion and re-establishes the equality. *)
Theorem endless_distance_is_floor_of_camera :
  forall g t, Endless.Reachable g t ->
    Endless.distance g = Math_floor (Endless.cameraX g / 100) /\
    (forall e, exists g' t',
        Endless.handle e g t = Some (g', t') /\
        Endless.distance g' = Math_floor (Endless.cameraX g' / 100)) /\
    (exists g', Endless.resetGame g t = Some (g', EndlessGen.skip 10 t) /\
                Endless.cameraX g' = 0 /\ Endless.distance g' = 0).
Proof.
  intros g t Hr. destruct (reachable_inv g t Hr) as [Hi Ht].
  split; [apply Hi |]. split.
  - intros e. destruct (handle_inv e g t Hi Ht) as (g' & t' & E & Hi' & _).
    exists g', t'. split; [exact E | apply Hi'].
  - destruct (resetGame_frame g t) as (g' & E & _ & Hc & Hd & _).
    exists g'. auto.
Qed.

Lemma endless_distance_is_floor_of_camera_witness :
  Endless.distance start_game = Math_floor (Endless.cameraX start_game / 100).
Proof.
  exact (proj1 (endless_distance_is_floor_of_camera start_game
                  (EndlessGen.skip 10 half_tape) start_game_reachable)).
Defined.

(** C4: in the endless variant the platform list is never empty: in every
    reachable state it is non-empty, the filter of [updatePlatforms] keeps
    at least the last platform, [updatePlatforms] and every event handler
    run to completion (no read of an undefined last platform) and leave a
    non-empty list, and so does [resetGame]. *)
Theorem endless_platforms_never_empty :
  forall g t, Endless.Reachable g t ->
    Endless.platforms g <> [] /\
    (let g1 := Endless.followCamera (Endless.movePlayer g) in
     filter (Endless.retained g1) (Endless.platforms g1) <> [] /\
     exists g2 t2, Endless.updatePlatforms g1 t = Some (g2, t2) /\
                   Endless.platforms g2 <> []) /\
    (forall e, exists g' t',
        Endless.handle e g t = Some (g', t') /\ Endless.platforms g' <> []) /\
    (exists g', Endless.resetGame g t = Some (g', EndlessGen.skip 10 t) /\
                Endless.platforms g' <> []).
Proof.
  intros g t Hr. destruct (reachable_inv g t Hr) as [Hi Ht].
  assert (Hne : forall s k, EndlessGen.InvS k s -> Endless.platforms s <> []).
  { intros s k [] Hnil. destruct inv_last as (l & p & E & _).
    rewrite Hnil in E. now destruct l. }
  split; [now apply Hne with 0 |]. split; [| split].
  - intros g1. destruct (before_platforms_inv g Hi) as (H1 & _ & _).
    fold g1 in H1.
    destruct (updatePlatforms_inv g1 t H1 Ht)
      as (l & prev & added & t1 & _ & Hf & E & _ & _ & H2).
    split.
    + rewrite Hf. now destruct (filter (Endless.retained g1) l).
    + eexists. eexists. split; [exact E |]. now apply Hne with 0.
  - intros e. destruct (handle_inv e g t Hi Ht) as (g' & t' & E & Hi' & _).
    exists g', t'. split; [exact E | now apply Hne with 0].
  - destruct (resetGame_frame g t) as (g' & E & H).
    exists g'. split; [exact E |].
    destruct H as (_ & _ & _ & _ & _ & _ & _ & ->). discriminate.
Qed.

Lemma endless_platforms_never_empty_witness :
  Endless.platforms start_game <> [].
Proof.
  exact (proj1 (endless_platforms_never_empty start_game
                  (EndlessGen.skip 10 half_tape) start_game_reachable)).
Defined.

(** C7: in the endless variant no step of the update loop changes a
    platform: [movePlayer], the camera step and [checkCollisions] leave the
    list as it is, and after an update the list is either the retained
    platforms of the old list, in order, followed by at most one new
    platform, or (on a fall) the freshly generated initial list. *)
Theorem endless_platforms_immutable :
  forall g t g' t', Endless.update g t = Some (g', t') ->
    let g0 := Endless.followCamera (Endless.movePlayer g) in
    Endless.platforms g0 = Endless.platforms g /\
    (forall s, Endless.platforms (Endless.checkCollisions s)
               = Endless.platforms s) /\
    ((exists added,
         Endless.platforms g'
         = filter (Endless.retained g0) (Endless.platforms g) ++ added /\
         (List.length added <= 1)%nat) \/
     (exists g1 t1,
         Endless.beforeFallCheck g t = Some (g1, t1) /\
         Canvas.height (Endless.canvas g1)
         < Endless.Player.y (Endless.player g1) /\
         Endless.platforms g'
         = EndlessGen.ground (Endless.canvas g1) ::
           EndlessGen.initialPlatforms 10
             (Canvas.width (Endless.canvas g1)) g1 t1)).
Proof.
  intros g t g' t' E g0. subst g0.
  destruct (movePlayer_frame g) as (Em & _).
  destruct (followCamera_cases (Endless.movePlayer g)) as (Ef & _).
  cbv zeta in Em, Ef.
  split; [rewrite <- Ef, <- Em; reflexivity |].
  split; [reflexivity |].
  unfold Endless.update, bind in E.
  destruct (Endless.beforeFallCheck g t) as [[g1 t1] |] eqn:E1;
    [| discriminate].
  destruct (beforeFallCheck_frame g t g1 t1 E1) as (_ & _ & _ & Hadd).
  destruct (Endless.fellOff g1) eqn:Ef1.
  - right. exists g1, t1. split; [reflexivity |].
    split; [now apply fellOff_true |].
    destruct (resetGame_frame g1 t1) as (g2 & E2 & H).
    rewrite E2 in E. injection E as <- <-. apply H.
  - left. injection E as <- <-. exact Hadd.
Qed.

Lemma endless_platforms_immutable_witness :
  exists added,
    Endless.platforms next_game
    = filter (Endless.retained
                (Endless.followCamera (Endless.movePlayer start_game)))
        (Endless.platforms start_game) ++ added /\
    (List.length added <= 1)%nat.
Proof.
  assert (E : Endless.update start_game half_tape
              = Some (next_game, half_tape))
    by (vm_compute; reflexivity).
  destruct (proj2 (proj2 (endless_platforms_immutable
              start_game half_tape next_game half_tape E)))
    as [H | (g1 & t1 & E1 & Hlt & _)]; [exact H |].
  exfalso. vm_compute in E1. injection E1 as <- <-.
  vm_compute in Hlt. discriminate.
Defined.

(** C5, as stated, fails on a frame that ends in a reset: the player of
    [falling_game] is at x = 340 with the camera at 40; the ninth frame
    moves it to 345, drops it past the bottom and resets the game, after
    which x is exactly one third of the canvas width while the camera is
    at 0: neither equal to the integrated x minus a third of the width,
    nor left as it was. *)
Lemma endless_reset_moves_camera :
  Endless.Reachable falling_game half_tape /\
  Endless.update falling_game half_tape = Some (fallen_game, half_tape) /\
  Endless.Player.x (Endless.player fallen_game)
  <= Canvas.width (Endless.canvas fallen_game) / 3 /\
  ~ Endless.cameraX fallen_game == Endless.cameraX falling_game /\
  Canvas.width (Endless.canvas falling_game) / 3
  < Endless.Player.x (Endless.player (Endless.movePlayer falling_game)) /\
  ~ Endless.cameraX fallen_game
    == Endless.Player.x (Endless.player (Endless.movePlayer falling_game))
       - Canvas.width (Endless.canvas falling_game) / 3.
Proof.
  split; [exact falling_game_reachable |].
  split; [vm_compute; reflexivity |].
  split; [vm_compute; discriminate |].
  split; [vm_compute; discriminate |].
  split; [vm_compute; reflexivity |].
  vm_compute; discriminate.
Qed.

(** C5, amended: in the endless variant, after a per-frame update that
    does not end in a fall reset, if the player's x exceeds one third of
    the canvas width then cameraX equals player.x - canvasWidth/3, and
    otherwise cameraX is left unchanged by the update; an update that ends
    in a fall reset leaves cameraX at 0 and the player at one third of the
    canvas width. *)
Theorem endless_camera_follows_player :
  forall g t g1 t1, Endless.beforeFallCheck g t = Some (g1, t1) ->
    let third := Canvas.width (Endless.canvas g) / 3 in
    (Endless.Player.y (Endless.player g1) <= Canvas.height (Endless.canvas g1)
     -> Endless.update g t = Some (g1, t1) /\
        (third < Endless.Player.x (Endless.player g1) ->
         Endless.cameraX g1 = Endless.Player.x (Endless.player g1) - third) /\
        (Endless.Player.x (Endless.player g1) <= third ->
         Endless.cameraX g1 = Endless.cameraX g)) /\
    (Canvas.height (Endless.canvas g1) < Endless.Player.y (Endless.player g1)
     -> exists g',
        Endless.update g t = Some (g', EndlessGen.skip 10 t1) /\
        Endless.cameraX g' = 0 /\
        Endless.Player.x (Endless.player g') = third).
Proof.
  intros g t g1 t1 E third. subst third.
  destruct (beforeFallCheck_frame g t g1 t1 E) as (Hc & Hcam & Hx & _).
  unfold Endless.update, bind. rewrite E. split.
  - intros Hy. apply fellOff_false in Hy. rewrite Hy.
    split; [reflexivity |]. rewrite Hcam, Hx.
    destruct (camera_step g) as [(Hlt & ->) | (Hle & ->)].
    + split; [reflexivity |]. intros Hle. exfalso. lra.
    + split; [intros Hlt; exfalso; lra | reflexivity].
  - intros Hy. apply fellOff_true in Hy. rewrite Hy.
    destruct (resetGame_frame g1 t1) as (g' & Er & _ & H0 & _ & Hx' & _).
    exists g'. rewrite <- Hc. auto.
Qed.

Lemma endless_camera_follows_player_witness :
  Endless.update start_game half_tape = Some (next_game, half_tape).
Proof.
  refine (proj1 (proj1 (endless_camera_follows_player start_game half_tape
            next_game half_tape _) _)).
  - vm_compute. reflexivity.
  - vm_compute. discriminate.
Defined.

(** C2, amended: in the endless variant the per-frame update ends with a
    fall-based reset.  From every reachable state the steps before the
    fall test run to completion; if the player's y then exceeds the canvas
    height, the update returns the state in which the player is at the
    start position (a third of the canvas width, 100) with zero velocity,
    cameraX and distance are 0 and the platform list is the one the
    constructor builds for this canvas from the following draws; if it
    does not, the update returns the state reached by the earlier steps. *)
Theorem endless_fall_reset :
  forall g t, Endless.Reachable g t ->
  exists g1 t1,
    Endless.beforeFallCheck g t = Some (g1, t1) /\
    (Canvas.height (Endless.canvas g1) < Endless.Player.y (Endless.player g1)
     -> exists g' g0,
        Endless.update g t = Some (g', EndlessGen.skip 10 t1) /\
        Endless.constructor (Canvas.width (Endless.canvas g))
          (Canvas.height (Endless.canvas g)) t1
        = Some (g0, EndlessGen.skip 10 t1) /\
        Endless.Player.x (Endless.player g')
        = Canvas.width (Endless.canvas g) / 3 /\
        Endless.Player.y (Endless.player g') = 100 /\
        Endless.Player.velocityX (Endless.player g') = 0 /\
        Endless.Player.velocityY (Endless.player g') = 0 /\
        Endless.cameraX g' = 0 /\ Endless.distance g' = 0 /\
        Endless.platforms g' = Endless.platforms g0) /\
    (Endless.Player.y (Endless.player g1) <= Canvas.height (Endless.canvas g1)
     -> Endless.update g t = Some (g1, t1)).
Proof.
  intros g t Hr. destruct (reachable_inv g t Hr) as [Hi Ht].
  destruct (beforeFallCheck_inv g t Hi Ht) as (g1 & t1 & E & Hi1 & Ht1).
  exists g1, t1. split; [exact E |].
  destruct (beforeFallCheck_frame g t g1 t1 E) as (Hc & _).
  unfold Endless.update, bind. rewrite E. split.
  - intros Hy. apply fellOff_true in Hy. rewrite Hy.
    destruct (resetGame_frame g1 t1)
      as (g' & Er & _ & Hcam & Hd & Hx & Hy' & Hvx & Hvy & Hpl).
    exists g'. eexists. split; [exact Er |].
    split; [apply constructor_eq |].
    rewrite <- Hc. do 6 (split; [assumption |]).
    rewrite Hpl. endless_fields.
    assert (Heta : Canvas.mk (Canvas.width (Endless.canvas g1))
                     (Canvas.height (Endless.canvas g1))
                   = Endless.canvas g1)
      by now destruct (Endless.canvas g1).
    rewrite Heta. apply (f_equal (cons _)).
    destruct Hi1. apply initialPlatforms_ext; unfold blank; endless_fields;
      auto.
  - intros Hy. apply fellOff_false in Hy. now rewrite Hy.
Qed.

Lemma endless_fall_reset_witness :
  exists g',
    Endless.update falling_game half_tape = Some (g', half_tape) /\
    Endless.Player.y (Endless.player g') = 100 /\
    Endless.cameraX g' = 0.
Proof.
  destruct (endless_fall_reset falling_game half_tape falling_game_reachable)
    as (g1 & t1 & E & Hreset & _).
  vm_compute in E. injection E as <- <-.
  destruct Hreset as (g' & g0 & Eu & _ & _ & Hy & _ & _ & Hc & _).
  { vm_compute. reflexivity. }
  exists g'. split; [exact Eu |]. split; assumption.
Defined.

(** *** Generated platforms and the draws they come from *)

Section Draws.

Variable g : Endless.Game.
Hypothesis HminW : Endless.minPlatformWidth g = 100.
Hypothesis HmaxW : Endless.maxPlatformWidth g = 300.
Hypothesis HminG : Endless.minGapWidth g = 100.
Hypothesis HmaxG : Endless.maxGapWidth g = 200.
Hypothesis HpH : Endless.platformHeight g = 20.

Lemma newPlatform_pushed x t :
  EndlessGen.newPlatform x g t = EndlessDraws.pushed (Endless.canvas g) x t.
Proof.
  unfold EndlessGen.newPlatform, EndlessDraws.pushed, EndlessDraws.between.
  now rewrite HminW, HmaxW, HpH.
Qed.

Lemma initialPlatforms_run n : forall x t,
  EndlessDraws.initial_run (Endless.canvas g) x t
    (EndlessGen.initialPlatforms n x g t).
Proof.
  induction n as [| n IH]; intros x t; simpl; [exact I |].
  split; [apply newPlatform_pushed |].
  rewrite HminG, HmaxG. apply IH.
Qed.

Lemma generated_in_ranges p :
  EndlessGen.generated (Endless.canvas g) p ->
  EndlessDraws.in_ranges (Endless.canvas g) p.
Proof. intros (_ & Hw & _ & Hy & Hh). repeat split; tauto. Qed.

End Draws.

Lemma between_gap_range t k :
  tape_ok t ->
  100 <= EndlessDraws.between (t k) 100 200 <= 200.
Proof.
  intros Ht. destruct (Ht k) as [H0 H1]. unfold EndlessDraws.between.
  split; lra.
Qed.

Lemma updatePlatforms_exact g t :
  EndlessGen.InvS 5 g -> tape_ok t ->
  exists l prev,
    Endless.platforms g = l ++ [prev] /\
    (Endless.updatePlatforms g t
     = Some (Endless.set_platforms g
               (filter (Endless.retained g) l ++ [prev]), t) \/
     Endless.updatePlatforms g t
     = Some (Endless.set_platforms g
               (filter (Endless.retained g) l
                ++ [prev;
                    EndlessDraws.pushed (Endless.canvas g)
                      (Platform.x prev + Platform.width prev
                       + EndlessDraws.between (t O) 100 200)
                      (drop 1 t)]),
             drop 3 t)).
Proof.
  intros [] Ht. destruct inv_last as (l & prev & Hl & Hb).
  assert (Hkeep : Endless.retained g prev = true).
  { unfold Endless.retained. apply Qltb_lt. lra. }
  assert (Hf : filter (Endless.retained g) (Endless.platforms g)
               = filter (Endless.retained g) l ++ [prev]).
  { rewrite Hl, filter_app. cbn [filter]. rewrite Hkeep. reflexivity. }
  exists l, prev. split; [exact Hl |].
  unfold Endless.updatePlatforms. endless_fields.
  rewrite Hf, last_elem_snoc.
  destruct (Qltb _ _).
  - right. unfold bind. rewrite randomBetween_eq, addNewPlatform_eq.
    endless_fields. rewrite <- app_assoc. cbn [app].
    rewrite <- (newPlatform_pushed g inv_minW inv_maxW inv_pH).
    rewrite inv_minG, inv_maxG. reflexivity.
  - left. reflexivity.
Qed.

(** C3, as stated, fails for the first platform of the initial generation:
    in a 900 x 600 window the ground platform, pushed by the initial
    generation with height 50 and width 1800, has its right edge at 1800
    and the platform appended next starts at 900, the canvas width, which
    is not 100 to 200 beyond that edge. *)
Lemma first_platform_starts_at_canvas_width :
  Endless.constructor 900 600 half_tape
  = Some (start_game, EndlessGen.skip 10 half_tape) /\
  exists ground first rest,
    Endless.platforms start_game = ground :: first :: rest /\
    Platform.x first == 900 /\
    Platform.x ground + Platform.width ground == 1800 /\
    ~ 100 <= Platform.x first - (Platform.x ground + Platform.width ground) /\
    ~ Platform.height ground == 20 /\
    ~ Platform.width ground <= 300.
Proof.
  split; [vm_compute; reflexivity |].
  eexists. eexists. eexists. split; [reflexivity |].
  split; [reflexivity |]. split; [reflexivity |].
  split; [| split]; intros H; vm_compute in H;
    solve [discriminate H | now apply H].
Qed.

(** C3, amended: in the endless variant every platform appended by
    [addNewPlatform] has width [r * (300 - 100) + 100] for one draw [r] of
    [Math.random()] and y [r' * (0.7 h - 0.3 h) + 0.3 h] for the next
    draw, hence a width in [100, 300] and a y in [0.3 h, 0.7 h], and
    height 20.  The initial generation (at construction and on reset)
    first pushes the ground platform, then a platform at x = canvas width,
    then nine more, each at the x of the one before it plus the sum of
    that one's width and a gap [r'' * (200 - 100) + 100] drawn after it.
    The per-frame maintenance draws nothing and appends nothing, or draws
    a gap, a width and a y, in that order, and appends one platform at the
    last platform's x plus its width plus the gap.  Every gap is in [100,
    200]. *)
Theorem endless_platform_generation :
  (forall w h t0, 0 <= h -> tape_ok t0 ->
     exists g rest,
       Endless.constructor w h t0 = Some (g, EndlessGen.skip 10 t0) /\
       Endless.platforms g = EndlessGen.ground (Canvas.mk w h) :: rest /\
       List.length rest = 10%nat /\
       EndlessDraws.initial_run (Canvas.mk w h) w t0 rest /\
       Forall (EndlessDraws.in_ranges (Canvas.mk w h)) rest) /\
  (forall g t, Endless.Reachable g t ->
     let g1 := Endless.followCamera (Endless.movePlayer g) in
     exists l prev,
       Endless.platforms g = l ++ [prev] /\
       (Endless.updatePlatforms g1 t
        = Some (Endless.set_platforms g1
                  (filter (Endless.retained g1) l ++ [prev]), t) \/
        exists p,
          p = EndlessDraws.pushed (Endless.canvas g)
                (Platform.x prev + Platform.width prev
                 + EndlessDraws.between (t O) 100 200)
                (drop 1 t) /\
          Endless.updatePlatforms g1 t
          = Some (Endless.set_platforms g1
                    (filter (Endless.retained g1) l ++ [prev; p]),
                  drop 3 t) /\
          EndlessDraws.in_ranges (Endless.canvas g) p)) /\
  (forall g t g1 t1, Endless.Reachable g t ->
     Endless.beforeFallCheck g t = Some (g1, t1) ->
     Canvas.height (Endless.canvas g1) < Endless.Player.y (Endless.player g1)
     -> exists g' rest,
       Endless.update g t = Some (g', EndlessGen.skip 10 t1) /\
       Endless.platforms g' = EndlessGen.ground (Endless.canvas g) :: rest /\
       List.length rest = 10%nat /\
       EndlessDraws.initial_run (Endless.canvas g)
         (Canvas.width (Endless.canvas g)) t1 rest /\
       Forall (EndlessDraws.in_ranges (Endless.canvas g)) rest) /\
  (forall t k, tape_ok t ->
     100 <= EndlessDraws.between (t k) 100 200 <= 200).
Proof.
  split; [| split; [| split]].
  - intros w h t0 Hh Ht0. eexists. eexists.
    split; [apply constructor_eq |]. endless_fields.
    split; [reflexivity |].
    split; [apply initialPlatforms_length |].
    split; [apply (initialPlatforms_run (blank w h)); reflexivity |].
    eapply Forall_impl;
      [apply (generated_in_ranges (blank w h))
      | apply (initialPlatforms_generated (blank w h)); auto; reflexivity].
  - intros g t Hr g1. destruct (reachable_inv g t Hr) as [Hi Ht].
    destruct (before_platforms_inv g Hi) as (H1 & Hp & Hc).
    fold g1 in H1, Hp, Hc.
    destruct (updatePlatforms_exact g1 t H1 Ht) as (l & prev & Hl & Hcase).
    exists l, prev. rewrite <- Hp. split; [exact Hl |].
    destruct Hcase as [E | E]; [left; exact E | right].
    eexists. split; [reflexivity |]. rewrite <- Hc.
    split; [exact E |].
    destruct H1. rewrite <- (newPlatform_pushed g1 inv_minW inv_maxW inv_pH).
    apply generated_in_ranges.
    apply newPlatform_generated; auto. now apply tape_ok_drop.
  - intros g t g1 t1 Hr E Hy. destruct (reachable_inv g t Hr) as [Hi Ht].
    destruct (beforeFallCheck_inv g t Hi Ht) as (g1' & t1' & E' & Hi1 & Ht1).
    rewrite E in E'. injection E' as <- <-.
    destruct (beforeFallCheck_frame g t g1 t1 E) as (Hc & _).
    destruct (resetGame_frame g1 t1)
      as (g' & Er & _ & _ & _ & _ & _ & _ & _ & Hpl).
    exists g'. eexists. unfold Endless.update, bind. rewrite E.
    apply fellOff_true in Hy. rewrite Hy, <- Hc.
    split; [exact Er |]. split; [exact Hpl |]. destruct Hi1.
    split; [apply initialPlatforms_length |].
    split; [apply initialPlatforms_run; assumption |].
    eapply Forall_impl;
      [apply generated_in_ranges
      | apply initialPlatforms_generated; assumption].
  - intros t k. apply between_gap_range.
Qed.

Lemma endless_platform_generation_witness :
  exists g rest,
    Endless.constructor 900 600 half_tape
    = Some (g, EndlessGen.skip 10 half_tape) /\
    Endless.platforms g = EndlessGen.ground (Canvas.mk 900 600) :: rest /\
    List.length rest = 10%nat /\
    EndlessDraws.initial_run (Canvas.mk 900 600) 900 half_tape rest.
Proof.
  destruct (proj1 endless_platform_generation 900 600 half_tape)
    as (g & rest & E & Hp & Hl & Hr & _).
  - unfold Qle. simpl. lia.
  - exact half_tape_ok.
  - exists g, rest. auto.
Defined.

(** ** Collision resolution as a whole (endless) *)

Lemma endless_lands_or_not p q :
  EndlessRule.lands p q \/ ~ EndlessRule.lands p q.
Proof.
  destruct (Endless.overlaps p q) eqn:Ho;
    [destruct (Endless.landing p q) eqn:Hl |].
  - left. apply endless_overlaps_iff in Ho. apply endless_landing_iff in Hl.
    unfold EndlessRule.lands. tauto.
  - right. intros (_ & Hv & Hb).
    assert (Endless.landing p q = true)
      by (apply endless_landing_iff; auto).
    congruence.
  - right. intros (H & _). apply endless_overlaps_iff in H. congruence.
Qed.

Lemma endless_snapped_is_final p q q' :
  Endless.collide (EndlessRule.snapped p q) q' = EndlessRule.snapped p q.
Proof.
  unfold Endless.collide.
  destruct (Endless.overlaps _ _); [| reflexivity].
  reflexivity.
Qed.

Lemma endless_fold_snapped l : forall p q,
  fold_left Endless.collide l (EndlessRule.snapped p q)
  = EndlessRule.snapped p q.
Proof.
  induction l as [| q' l IH]; intros p q; simpl; [reflexivity |].
  rewrite endless_snapped_is_final. apply IH.
Qed.

Lemma endless_fold_collide_first l : forall p,
  (Forall (fun q => ~ EndlessRule.lands p q) l /\
   fold_left Endless.collide l p = p) \/
  (exists l1 q l2,
      l = l1 ++ q :: l2 /\
      Forall (fun q' => ~ EndlessRule.lands p q') l1 /\
      EndlessRule.lands p q /\
      fold_left Endless.collide l p = EndlessRule.snapped p q).
Proof.
  induction l as [| a l IH]; intros p.
  - left. split; [constructor | reflexivity].
  - simpl. destruct (endless_lands_or_not p a) as [Hl | Hn].
    + right. exists [], a, l. split; [reflexivity |].
      split; [constructor |]. split; [exact Hl |].
      rewrite (endless_collide_lands p a Hl). apply endless_fold_snapped.
    + rewrite (endless_collide_misses p a Hn).
      destruct (IH p) as [(Hall & E) | (l1 & q & l2 & -> & Hall & Hl & E)].
      * left. split; [constructor; assumption | exact E].
      * right. exists (a :: l1), q, l2. split; [reflexivity |].
        split; [constructor; assumption |]. split; assumption.
Qed.

Lemma endless_snapped_between p q :
  EndlessRule.lands p q ->
  let p' := EndlessRule.snapped p q in
  Endless.Player.y p - Endless.Player.velocityY p <= Endless.Player.y p' /\
  Endless.Player.y p' < Endless.Player.y p.
Proof.
  intros ((_ & _ & _ & Hy) & Hv & Hb). unfold EndlessRule.previous_bottom in Hb.
  simpl. split; lra.
Qed.

(** ** Collision resolution as a whole (fixed) *)

Lemma fixed_lands_or_not p q :
  FixedRule.lands p q \/ ~ FixedRule.lands p q.
Proof.
  destruct (Fixed.overlaps p q) eqn:Ho;
    [destruct (Fixed.landing p q) eqn:Hl |].
  - left. apply fixed_overlaps_iff in Ho. apply fixed_landing_iff in Hl.
    unfold FixedRule.lands. tauto.
  - right. intros (_ & Hv & Hb).
    assert (Fixed.landing p q = true)
      by (apply fixed_landing_iff; auto).
    congruence.
  - right. intros (H & _). apply fixed_overlaps_iff in H. congruence.
Qed.

Lemma fixed_snapped_is_final p q q' :
  Fixed.collide (FixedRule.snapped p q) q' = FixedRule.snapped p q.
Proof.
  unfold Fixed.collide.
  destruct (Fixed.overlaps _ _); [| reflexivity].
  reflexivity.
Qed.

Lemma fixed_fold_snapped l : forall p q,
  fold_left Fixed.collide l (FixedRule.snapped p q)
  = FixedRule.snapped p q.
Proof.
  induction l as [| q' l IH]; intros p q; simpl; [reflexivity |].
  rewrite fixed_snapped_is_final. apply IH.
Qed.

Lemma fixed_fold_collide_first l : forall p,
  (Forall (fun q => ~ FixedRule.lands p q) l /\
   fold_left Fixed.collide l p = p) \/
  (exists l1 q l2,
      l = l1 ++ q :: l2 /\
      Forall (fun q' => ~ FixedRule.lands p q') l1 /\
      FixedRule.lands p q /\
      fold_left Fixed.collide l p = FixedRule.snapped p q).
Proof.
  induction l as [| a l IH]; intros p.
  - left. split; [constructor | reflexivity].
  - simpl. destruct (fixed_lands_or_not p a) as [Hl | Hn].
    + right. exists [], a, l. split; [reflexivity |].
      split; [constructor |]. split; [exact Hl |].
      rewrite (fixed_collide_lands p a Hl). apply fixed_fold_snapped.
    + rewrite (fixed_collide_misses p a Hn).
      destruct (IH p) as [(Hall & E) | (l1 & q & l2 & -> & Hall & Hl & E)].
      * left. split; [constructor; assumption | exact E].
      * right. exists (a :: l1), q, l2. split; [reflexivity |].
        split; [constructor; assumption |]. split; assumption.
Qed.

Lemma fixed_snapped_between p q :
  FixedRule.lands p q ->
  let p' := FixedRule.snapped p q in
  Fixed.Player.y p - Fixed.Player.velocityY p <= Fixed.Player.y p' /\
  Fixed.Player.y p' < Fixed.Player.y p.
Proof.
  intros ((_ & _ & _ & Hy) & Hv & Hb). unfold FixedRule.previous_bottom in Hb.
  simpl. split; lra.
Qed.


Lemma endless_grounded_iff this :
  let p := Endless.Player.set_isJumping (Endless.player this) true in
  let p' := Endless.player (Endless.checkCollisions this) in
  (Endless.Player.isJumping p' = false <->
   exists q, In q (Endless.platforms this) /\ EndlessRule.lands p q) /\
  (Endless.Player.isJumping p' = false ->
   Endless.Player.velocityY p' = 0 /\
   exists q, In q (Endless.platforms this) /\
             Endless.Player.y p' = Platform.y q - Endless.Player.height p' /\
             Endless.Player.x p' < Platform.x q + Platform.width q /\
             Platform.x q < Endless.Player.x p' + Endless.Player.width p').
Proof.
  intros p p'. subst p p'.
  destruct (endless_fold_collide_first (Endless.platforms this)
              (Endless.Player.set_isJumping (Endless.player this) true))
    as [(Hall & E) | (l1 & q & l2 & El & Hall & Hl & E)];
    unfold Endless.checkCollisions; cbn [Endless.player Endless.set_player];
    rewrite E.
  - split; [split |]; try discriminate.
    intros (q & Hin & Hl). rewrite Forall_forall in Hall.
    exfalso. exact (Hall q Hin Hl).
  - assert (Hin : In q (Endless.platforms this))
      by (rewrite El; apply in_or_app; right; left; reflexivity).
    split; [split; [intros _; exists q; auto | reflexivity] |].
    intros _. split; [reflexivity |]. exists q. split; [exact Hin |].
    destruct Hl as ((H1 & H2 & _) & _). simpl in *. auto.
Qed.

Lemma fixed_grounded_iff this :
  let p := Fixed.Player.set_isJumping (Fixed.player this) true in
  let p' := Fixed.player (Fixed.checkCollisions this) in
  (Fixed.Player.isJumping p' = false <->
   exists q, In q (Fixed.platforms this) /\ FixedRule.lands p q) /\
  (Fixed.Player.isJumping p' = false ->
   Fixed.Player.velocityY p' = 0 /\
   exists q, In q (Fixed.platforms this) /\
             Fixed.Player.y p' = Platform.y q - Fixed.Player.height p' /\
             Fixed.Player.x p' < Platform.x q + Platform.width q /\
             Platform.x q < Fixed.Player.x p' + Fixed.Player.width p').
Proof.
  intros p p'. subst p p'.
  destruct (fixed_fold_collide_first (Fixed.platforms this)
              (Fixed.Player.set_isJumping (Fixed.player this) true))
    as [(Hall & E) | (l1 & q & l2 & El & Hall & Hl & E)];
    unfold Fixed.checkCollisions; cbn [Fixed.player Fixed.set_player];
    rewrite E.
  - split; [split |]; try discriminate.
    intros (q & Hin & Hl). rewrite Forall_forall in Hall.
    exfalso. exact (Hall q Hin Hl).
  - assert (Hin : In q (Fixed.platforms this))
      by (rewrite El; apply in_or_app; right; left; reflexivity).
    split; [split; [intros _; exists q; auto | reflexivity] |].
    intros _. split; [reflexivity |]. exists q. split; [exact Hin |].
    destruct Hl as ((H1 & H2 & _) & _). simpl in *. auto.
Qed.



Lemma endless_checkCollisions_moves_up this :
  let p := Endless.player this in
  let p' := Endless.player (Endless.checkCollisions this) in
  Endless.Player.x p' = Endless.Player.x p /\
  Endless.Player.width p' = Endless.Player.width p /\
  Endless.Player.height p' = Endless.Player.height p /\
  Endless.Player.velocityX p' = Endless.Player.velocityX p /\
  ((Endless.Player.y p' = Endless.Player.y p /\
    Endless.Player.velocityY p' = Endless.Player.velocityY p /\
    Endless.Player.isJumping p' = true) \/
   (Endless.Player.y p - Endless.Player.velocityY p <= Endless.Player.y p' /\
    Endless.Player.y p' < Endless.Player.y p /\
    Endless.Player.velocityY p' = 0 /\
    Endless.Player.isJumping p' = false)).
Proof.
  intros p p'. subst p p'.
  destruct (endless_fold_collide_first (Endless.platforms this)
              (Endless.Player.set_isJumping (Endless.player this) true))
    as [(_ & E) | (l1 & q & l2 & _ & _ & Hl & E)];
    unfold Endless.checkCollisions; cbn [Endless.player Endless.set_player];
    rewrite E.
  - repeat split. left. repeat split.
  - repeat split. right.
    destruct (endless_snapped_between _ q Hl) as [H1 H2].
    repeat split; assumption.
Qed.

Lemma fixed_checkCollisions_moves_up this :
  let p := Fixed.player this in
  let p' := Fixed.player (Fixed.checkCollisions this) in
  Fixed.Player.x p' = Fixed.Player.x p /\
  Fixed.Player.width p' = Fixed.Player.width p /\
  Fixed.Player.height p' = Fixed.Player.height p /\
  Fixed.Player.velocityX p' = Fixed.Player.velocityX p /\
  ((Fixed.Player.y p' = Fixed.Player.y p /\
    Fixed.Player.velocityY p' = Fixed.Player.velocityY p /\
    Fixed.Player.isJumping p' = true) \/
   (Fixed.Player.y p - Fixed.Player.velocityY p <= Fixed.Player.y p' /\
    Fixed.Player.y p' < Fixed.Player.y p /\
    Fixed.Player.velocityY p' = 0 /\
    Fixed.Player.isJumping p' = false)).
Proof.
  intros p p'. subst p p'.
  destruct (fixed_fold_collide_first (Fixed.platforms this)
              (Fixed.Player.set_isJumping (Fixed.player this) true))
    as [(_ & E) | (l1 & q & l2 & _ & _ & Hl & E)];
    unfold Fixed.checkCollisions; cbn [Fixed.player Fixed.set_player];
    rewrite E.
  - repeat split. left. repeat split.
  - repeat split. right.
    destruct (fixed_snapped_between _ q Hl) as [H1 H2].
    repeat split; assumption.
Qed.


(** ** One frame of input, jump and gravity *)

Lemma endless_movePlayer_vertical g :
  let p := Endless.player g in
  let p1 := Endless.player (Endless.movePlayer g) in
  Endless.Player.height p1 = Endless.Player.height p /\
  Endless.Player.width p1 = Endless.Player.width p /\
  Endless.Player.y p1 = Endless.Player.y p + Endless.Player.velocityY p1 /\
  (Input.jump (Endless.input g) = true /\
   Endless.Player.isJumping p = false ->
   Endless.Player.velocityY p1 = Endless.jumpForce g + Endless.gravity g /\
   Endless.Player.isJumping p1 = true) /\
  (Input.jump (Endless.input g) = false \/
   Endless.Player.isJumping p = true ->
   Endless.Player.velocityY p1
   = Endless.Player.velocityY p + Endless.gravity g /\
   Endless.Player.isJumping p1 = Endless.Player.isJumping p).
Proof.
  unfold Endless.movePlayer.
  destruct (Input.right (Endless.input g)), (Input.left (Endless.input g)),
    (Input.jump (Endless.input g)),
    (Endless.Player.isJumping (Endless.player g)) eqn:Ej; simpl;
    rewrite ?Ej; simpl; repeat split; intros; intuition congruence.
Qed.

Lemma fixed_movePlayer_vertical g :
  let p := Fixed.player g in
  let p1 := Fixed.player (Fixed.movePlayer g) in
  Fixed.Player.height p1 = Fixed.Player.height p /\
  Fixed.Player.width p1 = Fixed.Player.width p /\
  Fixed.Player.y p1 = Fixed.Player.y p + Fixed.Player.velocityY p1 /\
  (Input.jump (Fixed.input g) = true /\
   Fixed.Player.isJumping p = false ->
   Fixed.Player.velocityY p1 = Fixed.jumpForce g + Fixed.gravity g /\
   Fixed.Player.isJumping p1 = true) /\
  (Input.jump (Fixed.input g) = false \/
   Fixed.Player.isJumping p = true ->
   Fixed.Player.velocityY p1 = Fixed.Player.velocityY p + Fixed.gravity g /\
   Fixed.Player.isJumping p1 = Fixed.Player.isJumping p).
Proof.
  unfold Fixed.movePlayer.
  destruct (Input.right (Fixed.input g)), (Input.left (Fixed.input g)),
    (Input.jump (Fixed.input g)),
    (Fixed.Player.isJumping (Fixed.player g)) eqn:Ej; simpl;
    rewrite ?Ej; simpl; repeat split; intros; intuition congruence.
Qed.

Lemma fixed_clamp_vertical g :
  let p := Fixed.player g in
  let p1 := Fixed.player (Fixed.clampToCanvas g) in
  Fixed.Player.y p1 = Fixed.Player.y p /\
  Fixed.Player.velocityY p1 = Fixed.Player.velocityY p /\
  Fixed.Player.height p1 = Fixed.Player.height p /\
  Fixed.Player.isJumping p1 = Fixed.Player.isJumping p /\
  Fixed.platforms (Fixed.clampToCanvas g) = Fixed.platforms g.
Proof.
  unfold Fixed.clampToCanvas.
  repeat match goal with |- context [if ?b then _ else _] =>
    destruct b end; now simpl.
Qed.

Lemma beforeFallCheck_decompose g t g1 t1 :
  Endless.beforeFallCheck g t = Some (g1, t1) ->
  exists g2 added,
    g1 = Endless.checkCollisions g2 /\
    Endless.player g2 = Endless.player (Endless.movePlayer g) /\
    Endless.platforms g2
    = filter (Endless.retained (Endless.followCamera (Endless.movePlayer g)))
        (Endless.platforms g) ++ added /\
    Endless.gravity g2 = Endless.gravity g /\
    Endless.jumpForce g2 = Endless.jumpForce g.
Proof.
  unfold Endless.beforeFallCheck, bind.
  destruct (Endless.updatePlatforms _ t) as [[g2 t2] |] eqn:E;
    [| discriminate].
  intros [= <- <-].
  destruct (updatePlatforms_frame _ _ _ _ E) as (added & -> & _).
  destruct (movePlayer_frame g) as (Em & _).
  destruct (followCamera_cases (Endless.movePlayer g)) as (Ef & _).
  cbv zeta in Em, Ef.
  eexists. exists added. split; [reflexivity |]. endless_fields.
  rewrite <- Ef. endless_fields. rewrite <- Em at 2 3 4 5. endless_fields.
  repeat split.
Qed.

(** ** Constants and the jump rule in the reachable states *)

Lemma fixed_handleResize_eq w h g g' :
  Fixed.handleResize w h g = Some g' ->
  exists ps, g' = Fixed.set_platforms (Fixed.set_canvas g (Canvas.mk w h)) ps.
Proof.
  unfold Fixed.handleResize, Fixed.andThen.
  repeat match goal with
         | |- context [match ?o with Some _ => _ | None => _ end] =>
             destruct o; [| discriminate]
         end.
  intros [= <-]. eexists. reflexivity.
Qed.

Lemma fixed_handle_input_eq e g g' :
  Fixed.handle e g = Some g' -> e <> Frame ->
  (forall w h, e <> Resize w h) ->
  exists i, g' = Fixed.set_input g i.
Proof.
  intros H Hf Hr. destruct e; simpl in H.
  - injection H as <-. unfold Fixed.handleKeyDown.
    repeat match goal with |- context [String.eqb ?a ?b] =>
      destruct (String.eqb a b) end; eauto.
    exists (Fixed.input g). now destruct g.
  - injection H as <-. unfold Fixed.handleKeyUp.
    repeat match goal with |- context [String.eqb ?a ?b] =>
      destruct (String.eqb a b) end; eauto.
    exists (Fixed.input g). now destruct g.
  - injection H as <-. unfold Fixed.handleTouch.
    repeat match goal with |- context [Qltb ?a ?b] =>
      destruct (Qltb a b) end; eauto.
  - injection H as <-. unfold Fixed.handleTouchEnd. eauto.
  - exfalso. eapply Hr. reflexivity.
  - now exfalso.
Qed.

Lemma fixed_reachable_physics g :
  Fixed.Reachable g ->
  Fixed.gravity g = 0.5 /\ Fixed.jumpForce g = -12 /\
  Fixed.moveSpeed g = 5 /\
  Fixed.Player.height (Fixed.player g) = 48 /\
  (Fixed.Player.isJumping (Fixed.player g) = false ->
   Fixed.Player.velocityY (Fixed.player g) = 0).
Proof.
  induction 1 as [w h | e g g' Hr (Hg & Hj & Hm & Hh & Hv) He].
  - simpl. auto.
  - destruct e.
    1-4: destruct (fixed_handle_input_eq _ g g' He) as [i ->];
      [discriminate | discriminate | simpl; auto].
    + simpl in He. destruct (fixed_handleResize_eq _ _ _ _ He) as [ps ->].
      simpl. auto.
    + simpl in He. injection He as <-.
      destruct (fixed_checkCollisions_moves_up
                  (Fixed.clampToCanvas (Fixed.movePlayer g)))
        as (_ & _ & Eh & _).
      destruct (fixed_clamp_vertical (Fixed.movePlayer g))
        as (_ & _ & Ch & _).
      destruct (fixed_movePlayer_vertical g) as (Mh & _).
      cbv zeta in Eh, Ch, Mh.
      unfold Fixed.update. rewrite Eh, Ch, Mh.
      repeat split; auto.
      apply (fixed_grounded_iff (Fixed.clampToCanvas (Fixed.movePlayer g))).
Qed.

Lemma resetGame_player g t g' t' :
  Endless.resetGame g t = Some (g', t') ->
  Endless.gravity g' = Endless.gravity g /\
  Endless.jumpForce g' = Endless.jumpForce g /\
  Endless.Player.height (Endless.player g')
  = Endless.Player.height (Endless.player g) /\
  Endless.Player.width (Endless.player g')
  = Endless.Player.width (Endless.player g) /\
  Endless.Player.isJumping (Endless.player g')
  = Endless.Player.isJumping (Endless.player g) /\
  Endless.Player.velocityY (Endless.player g') = 0.
Proof.
  unfold Endless.resetGame. rewrite generateInitialPlatforms_eq.
  intros [= <- <-]. endless_fields. repeat split.
Qed.

Lemma endless_reachable_physics g t :
  Endless.Reachable g t ->
  Endless.gravity g = 0.5 /\ Endless.jumpForce g = -12 /\
  Endless.Player.height (Endless.player g) = 48 /\
  Endless.Player.width (Endless.player g) = 32 /\
  (Endless.Player.isJumping (Endless.player g) = false ->
   Endless.Player.velocityY (Endless.player g) = 0).
Proof.
  induction 1 as [w h t0 g t Hw Hh Ht0 E
                 | e g t g' t' Hr (Hg & Hj & Hh & Hw & Hv) E].
  - rewrite constructor_eq in E. injection E as <- <-. simpl. auto.
  - destruct e.
    1-5: match goal with H : Endless.handle ?e _ _ = _ |- _ =>
           destruct (handle_input_frame e g t ltac:(discriminate)) as [i Ei];
           rewrite Ei in H; injection H as <- <-
         end; simpl; auto.
    simpl in E. unfold Endless.update, bind in E.
    destruct (Endless.beforeFallCheck g t) as [[g1 t1] |] eqn:E1;
      [| discriminate].
    destruct (beforeFallCheck_decompose g t g1 t1 E1)
      as (g2 & added & -> & Ep & _ & Eg & Ej).
    destruct (endless_checkCollisions_moves_up g2)
      as (_ & Cw & Ch & _).
    destruct (endless_movePlayer_vertical g) as (Mh & Mw & _).
    cbv zeta in Cw, Ch, Mh, Mw. rewrite Ep in Cw, Ch.
    assert (Hphys :
      Endless.gravity (Endless.checkCollisions g2) = 0.5 /\
      Endless.jumpForce (Endless.checkCollisions g2) = -12 /\
      Endless.Player.height (Endless.player (Endless.checkCollisions g2)) = 48
      /\
      Endless.Player.width (Endless.player (Endless.checkCollisions g2)) = 32).
    { rewrite Ch, Cw, Mh, Mw. unfold Endless.checkCollisions.
      endless_fields. rewrite Eg, Ej. auto. }
    destruct Hphys as (Pg & Pj & Ph & Pw).
    destruct (Endless.fellOff _).
    + destruct (resetGame_player _ _ _ _ E) as (-> & -> & -> & -> & _ & Z).
      repeat split; auto.
    + injection E as <- <-. repeat split; auto.
      apply (endless_grounded_iff g2).
Qed.

(** X6: in every reachable state of both variants a player that is not
    airborne ([isJumping] false) has vertical velocity 0.  A requested
    jump from such a state sets the vertical velocity to -12 + 0.5 (the
    jump force and one frame of gravity) and marks the player airborne;
    while the player is airborne a jump request is ignored and the
    velocity only gains one frame of gravity (0.5).  In both cases y moves
    by the new velocity. *)
Theorem jump_starts_only_from_the_ground :
  (forall g t, Endless.Reachable g t ->
     let p := Endless.player g in
     let p1 := Endless.player (Endless.movePlayer g) in
     (Endless.Player.isJumping p = false -> Endless.Player.velocityY p = 0) /\
     (Input.jump (Endless.input g) = true ->
      Endless.Player.isJumping p = false ->
      Endless.Player.velocityY p1 = -12 + 0.5 /\
      Endless.Player.isJumping p1 = true) /\
     (Endless.Player.isJumping p = true ->
      Endless.Player.velocityY p1 = Endless.Player.velocityY p + 0.5 /\
      Endless.Player.isJumping p1 = true) /\
     Endless.Player.y p1 = Endless.Player.y p + Endless.Player.velocityY p1) /\
  (forall g, Fixed.Reachable g ->
     let p := Fixed.player g in
     let p1 := Fixed.player (Fixed.movePlayer g) in
     (Fixed.Player.isJumping p = false -> Fixed.Player.velocityY p = 0) /\
     (Input.jump (Fixed.input g) = true ->
      Fixed.Player.isJumping p = false ->
      Fixed.Player.velocityY p1 = -12 + 0.5 /\
      Fixed.Player.isJumping p1 = true) /\
     (Fixed.Player.isJumping p = true ->
      Fixed.Player.velocityY p1 = Fixed.Player.velocityY p + 0.5 /\
      Fixed.Player.isJumping p1 = true) /\
     Fixed.Player.y p1 = Fixed.Player.y p + Fixed.Player.velocityY p1).
Proof.
  split.
  - intros g t Hr p p1. subst p p1.
    destruct (endless_reachable_physics g t Hr) as (Hg & Hj & _ & _ & Hv).
    destruct (endless_movePlayer_vertical g) as (_ & _ & Ey & Hjump & Hair).
    cbv zeta in Ey, Hjump, Hair. rewrite Hg, Hj in *.
    split; [exact Hv |]. split; [intros; apply Hjump; auto |].
    split; [| exact Ey].
    intros Ha. destruct (Hair (or_intror Ha)) as [E1 E2].
    split; congruence.
  - intros g Hr p p1. subst p p1.
    destruct (fixed_reachable_physics g Hr) as (Hg & Hj & _ & _ & Hv).
    destruct (fixed_movePlayer_vertical g) as (_ & _ & Ey & Hjump & Hair).
    cbv zeta in Ey, Hjump, Hair. rewrite Hg, Hj in *.
    split; [exact Hv |]. split; [intros; apply Hjump; auto |].
    split; [| exact Ey].
    intros Ha. destruct (Hair (or_intror Ha)) as [E1 E2].
    split; congruence.
Qed.

Lemma fixed_run_reachable es : forall g g',
  Fixed.Reachable g -> Fixed.run es g = Some g' -> Fixed.Reachable g'.
Proof.
  induction es as [| e es IH]; intros g g' Hg E; simpl in E.
  - injection E as <-. exact Hg.
  - unfold Fixed.andThen in E.
    destruct (Fixed.handle e g) as [g1 |] eqn:E1; [| discriminate].
    apply (IH g1 g'); [| exact E].
    apply Fixed.reach_event with e g; assumption.
Qed.

Lemma landed_game_reachable : Fixed.Reachable landed_game.
Proof.
  apply (fixed_run_reachable (repeat Frame 25) (Fixed.constructor 800 600));
    [constructor | vm_compute; reflexivity].
Qed.

Lemma jump_starts_only_from_the_ground_witness :
  Fixed.Player.velocityY
    (Fixed.player
       (Fixed.movePlayer (Fixed.handleKeyDown "Space" landed_game)))
  = -12 + 0.5.
Proof.
  refine (proj1 (proj1 (proj2 (proj2 jump_starts_only_from_the_ground
            (Fixed.handleKeyDown "Space" landed_game) _)) _ _)).
  - apply Fixed.reach_event with (e := KeyDown "Space") (g := landed_game);
      [exact landed_game_reachable | reflexivity].
  - reflexivity.
  - reflexivity.
Defined.

Lemma endless_key_round_trip code g :
  Endless.handleKeyUp code (Endless.handleKeyDown code g)
  = Endless.handleKeyUp code g /\
  Endless.handleKeyDown code (Endless.handleKeyUp code g)
  = Endless.handleKeyDown code g /\
  Endless.handleKeyDown code (Endless.handleKeyDown code g)
  = Endless.handleKeyDown code g /\
  (code <> "ArrowLeft"%string -> code <> "ArrowRight"%string ->
   code <> "Space"%string ->
   Endless.handleKeyDown code g = g /\ Endless.handleKeyUp code g = g).
Proof.
  unfold Endless.handleKeyDown, Endless.handleKeyUp.
  destruct (String.eqb_spec code "ArrowLeft");
    destruct (String.eqb_spec code "ArrowRight");
    destruct (String.eqb_spec code "Space");
    repeat split; intros; try contradiction; try reflexivity.
Qed.

Lemma endless_key_flags g :
  Input.left (Endless.input (Endless.handleKeyDown "ArrowLeft" g)) = true /\
  Input.right (Endless.input (Endless.handleKeyDown "ArrowRight" g)) = true /\
  Input.jump (Endless.input (Endless.handleKeyDown "Space" g)) = true /\
  Input.left (Endless.input (Endless.handleKeyUp "ArrowLeft" g)) = false /\
  Input.right (Endless.input (Endless.handleKeyUp "ArrowRight" g)) = false /\
  Input.jump (Endless.input (Endless.handleKeyUp "Space" g)) = false.
Proof. repeat split. Qed.

Lemma fixed_key_round_trip code g :
  Fixed.handleKeyUp code (Fixed.handleKeyDown code g)
  = Fixed.handleKeyUp code g /\
  Fixed.handleKeyDown code (Fixed.handleKeyUp code g)
  = Fixed.handleKeyDown code g /\
  Fixed.handleKeyDown code (Fixed.handleKeyDown code g)
  = Fixed.handleKeyDown code g /\
  (code <> "ArrowLeft"%string -> code <> "ArrowRight"%string ->
   code <> "Space"%string ->
   Fixed.handleKeyDown code g = g /\ Fixed.handleKeyUp code g = g).
Proof.
  unfold Fixed.handleKeyDown, Fixed.handleKeyUp.
  destruct (String.eqb_spec code "ArrowLeft");
    destruct (String.eqb_spec code "ArrowRight");
    destruct (String.eqb_spec code "Space");
    repeat split; intros; try contradiction; try reflexivity.
Qed.

Lemma fixed_key_flags g :
  Input.left (Fixed.input (Fixed.handleKeyDown "ArrowLeft" g)) = true /\
  Input.right (Fixed.input (Fixed.handleKeyDown "ArrowRight" g)) = true /\
  Input.jump (Fixed.input (Fixed.handleKeyDown "Space" g)) = true /\
  Input.left (Fixed.input (Fixed.handleKeyUp "ArrowLeft" g)) = false /\
  Input.right (Fixed.input (Fixed.handleKeyUp "ArrowRight" g)) = false /\
  Input.jump (Fixed.input (Fixed.handleKeyUp "Space" g)) = false.
Proof. repeat split. Qed.

(** X7: in both variants the key handlers form a press/release pair per
    key: releasing after pressing is the same as releasing, pressing after
    releasing the same as pressing, pressing twice the same as pressing
    once; the three known codes set, respectively clear, their own flag;
    and a key code other than ArrowLeft, ArrowRight and Space changes
    nothing at all. *)
Theorem key_handlers_press_release :
  (forall code g,
      Endless.handleKeyUp code (Endless.handleKeyDown code g)
      = Endless.handleKeyUp code g /\
      Endless.handleKeyDown code (Endless.handleKeyUp code g)
      = Endless.handleKeyDown code g /\
      Endless.handleKeyDown code (Endless.handleKeyDown code g)
      = Endless.handleKeyDown code g /\
      (code <> "ArrowLeft"%string -> code <> "ArrowRight"%string ->
       code <> "Space"%string ->
       Endless.handleKeyDown code g = g /\ Endless.handleKeyUp code g = g) /\
      Input.left (Endless.input (Endless.handleKeyDown "ArrowLeft" g)) = true
      /\
      Input.right (Endless.input (Endless.handleKeyDown "ArrowRight" g))
      = true /\
      Input.jump (Endless.input (Endless.handleKeyDown "Space" g)) = true /\
      Input.left (Endless.input (Endless.handleKeyUp "ArrowLeft" g)) = false
      /\
      Input.right (Endless.input (Endless.handleKeyUp "ArrowRight" g))
      = false /\
      Input.jump (Endless.input (Endless.handleKeyUp "Space" g)) = false) /\
  (forall code g,
      Fixed.handleKeyUp code (Fixed.handleKeyDown code g)
      = Fixed.handleKeyUp code g /\
      Fixed.handleKeyDown code (Fixed.handleKeyUp code g)
      = Fixed.handleKeyDown code g /\
      Fixed.handleKeyDown code (Fixed.handleKeyDown code g)
      = Fixed.handleKeyDown code g /\
      (code <> "ArrowLeft"%string -> code <> "ArrowRight"%string ->
       code <> "Space"%string ->
       Fixed.handleKeyDown code g = g /\ Fixed.handleKeyUp code g = g) /\
      Input.left (Fixed.input (Fixed.handleKeyDown "ArrowLeft" g)) = true /\
      Input.right (Fixed.input (Fixed.handleKeyDown "ArrowRight" g)) = true /\
      Input.jump (Fixed.input (Fixed.handleKeyDown "Space" g)) = true /\
      Input.left (Fixed.input (Fixed.handleKeyUp "ArrowLeft" g)) = false /\
      Input.right (Fixed.input (Fixed.handleKeyUp "ArrowRight" g)) = false /\
      Input.jump (Fixed.input (Fixed.handleKeyUp "Space" g)) = false).
Proof.
  split; intros code g.
  - destruct (endless_key_round_trip code g) as (H1 & H2 & H3 & H4).
    repeat split; auto; apply H4; assumption.
  - destruct (fixed_key_round_trip code g) as (H1 & H2 & H3 & H4).
    repeat split; auto; apply H4; assumption.
Qed.

Lemma key_handlers_press_release_witness :
  Fixed.handleKeyDown "KeyA" landed_game = landed_game /\
  Fixed.handleKeyUp "KeyA" landed_game = landed_game.
Proof.
  refine (proj1 (proj2 (proj2 (proj2 (proj2 key_handlers_press_release
            "KeyA"%string landed_game)))) _ _ _); discriminate.
Defined.

(** X8: in both variants the key and touch handlers change nothing but
    the input flags: the player, the platforms, the canvas and (endless
    variant) the camera, the score and the source of randomness are left
    as they are. *)
Theorem input_handlers_touch_only_input :
  (forall e g t, e <> Frame ->
     exists i, Endless.handle e g t = Some (Endless.set_input g i, t)) /\
  (forall e g, e <> Frame -> (forall w h, e <> Resize w h) ->
     exists i, Fixed.handle e g = Some (Fixed.set_input g i)).
Proof.
  split.
  - intros e g t. apply handle_input_frame.
  - intros e g Hf Hr.
    assert (Hex : exists g', Fixed.handle e g = Some g').
    { destruct e; simpl; eauto.
      - exfalso. eapply Hr. reflexivity. }
    destruct Hex as [g' E].
    destruct (fixed_handle_input_eq e g g' E Hf Hr) as [i ->]. eauto.
Qed.

Lemma input_handlers_touch_only_input_witness :
  exists i, Fixed.handle TouchEnd landed_game
            = Some (Fixed.set_input landed_game i).
Proof.
  refine (proj2 input_handlers_touch_only_input TouchEnd landed_game _ _);
    discriminate.
Defined.

(** ** Touch zones and the next frame's horizontal velocity *)

Lemma endless_movePlayer_velocityX g :
  Endless.Player.velocityX (Endless.player (Endless.movePlayer g))
  = if Input.right (Endless.input g)
    then Endless.Player.speed (Endless.player g)
    else if Input.left (Endless.input g)
         then - Endless.Player.speed (Endless.player g)
         else 0.
Proof.
  unfold Endless.movePlayer.
  repeat match goal with |- context [if ?b then _ else _] =>
    destruct b end; reflexivity.
Qed.

Lemma fixed_movePlayer_velocityX g :
  Fixed.Player.velocityX (Fixed.player (Fixed.movePlayer g))
  = if Input.left (Fixed.input g)
    then - Fixed.moveSpeed g
    else if Input.right (Fixed.input g)
         then Fixed.moveSpeed g
         else 0.
Proof.
  unfold Fixed.movePlayer.
  repeat match goal with |- context [if ?b then _ else _] =>
    destruct b end; reflexivity.
Qed.

Lemma endless_touch_direction clientX g :
  let w := Canvas.width (Endless.canvas g) in
  let touched := Endless.handleTouch clientX g in
  let vx this := Endless.Player.velocityX
                   (Endless.player (Endless.movePlayer this)) in
  (clientX < w / 3 ->
   vx touched = - Endless.Player.speed (Endless.player g)) /\
  (w / 3 <= clientX -> w * 2 / 3 < clientX ->
   vx touched = Endless.Player.speed (Endless.player g)) /\
  (w / 3 <= clientX -> clientX <= w * 2 / 3 ->
   Endless.input touched = Input.set_jump (Endless.input g) true /\
   vx touched = vx g) /\
  vx (Endless.handleTouchEnd touched) = 0 /\
  Input.jump (Endless.input (Endless.handleTouchEnd touched)) = false.
Proof.
  intros w touched vx. subst w touched vx. cbv beta.
  rewrite !endless_movePlayer_velocityX. unfold Endless.handleTouch.
  destruct (Qltb clientX _) eqn:E1; [| destruct (Qltb _ clientX) eqn:E2].
  - apply Qltb_lt in E1.
    split; [intros _; reflexivity |].
    split; [intros H; exfalso; lra |].
    split; [intros H; exfalso; lra |]. split; reflexivity.
  - apply Qltb_ge in E1. apply Qltb_lt in E2.
    split; [intros H; exfalso; lra |].
    split; [intros _ _; reflexivity |].
    split; [intros _ H; exfalso; lra |]. split; reflexivity.
  - apply Qltb_ge in E1. apply Qltb_ge in E2.
    split; [intros H; exfalso; lra |].
    split; [intros _ H; exfalso; lra |].
    split; [intros _ _; split; reflexivity |]. split; reflexivity.
Qed.

Lemma fixed_touch_direction clientX g :
  let w := Canvas.width (Fixed.canvas g) in
  let touched := Fixed.handleTouch clientX g in
  let vx this := Fixed.Player.velocityX
                   (Fixed.player (Fixed.movePlayer this)) in
  (clientX < w / 3 -> vx touched = - Fixed.moveSpeed g) /\
  (w / 3 <= clientX -> w * 2 / 3 < clientX ->
   vx touched = Fixed.moveSpeed g) /\
  (w / 3 <= clientX -> clientX <= w * 2 / 3 ->
   Fixed.input touched = Input.set_jump (Fixed.input g) true /\
   vx touched = vx g) /\
  vx (Fixed.handleTouchEnd touched) = 0 /\
  Input.jump (Fixed.input (Fixed.handleTouchEnd touched)) = false.
Proof.
  intros w touched vx. subst w touched vx. cbv beta.
  rewrite !fixed_movePlayer_velocityX. unfold Fixed.handleTouch.
  destruct (Qltb clientX _) eqn:E1; [| destruct (Qltb _ clientX) eqn:E2].
  - apply Qltb_lt in E1.
    split; [intros _; reflexivity |].
    split; [intros H; exfalso; lra |].
    split; [intros H; exfalso; lra |]. split; reflexivity.
  - apply Qltb_ge in E1. apply Qltb_lt in E2.
    split; [intros H; exfalso; lra |].
    split; [intros _ _; reflexivity |].
    split; [intros _ H; exfalso; lra |]. split; reflexivity.
  - apply Qltb_ge in E1. apply Qltb_ge in E2.
    split; [intros H; exfalso; lra |].
    split; [intros _ H; exfalso; lra |].
    split; [intros _ _; split; reflexivity |]. split; reflexivity.
Qed.

(** X9: in both variants a touch decides the next frame's horizontal
    velocity whatever the keys had set.  A touch left of one third of the
    canvas width makes the player move left at its speed; a touch right of
    two thirds (and not left of one third) makes it move right; a touch in
    between only requests a jump and leaves the direction as it was; and
    after the end of a touch the next frame has horizontal velocity 0 and
    no jump request. *)
Theorem touch_decides_direction :
  (forall clientX g,
      let w := Canvas.width (Endless.canvas g) in
      let touched := Endless.handleTouch clientX g in
      let vx this := Endless.Player.velocityX
                       (Endless.player (Endless.movePlayer this)) in
      (clientX < w / 3 ->
       vx touched = - Endless.Player.speed (Endless.player g)) /\
      (w / 3 <= clientX -> w * 2 / 3 < clientX ->
       vx touched = Endless.Player.speed (Endless.player g)) /\
      (w / 3 <= clientX -> clientX <= w * 2 / 3 ->
       Endless.input touched = Input.set_jump (Endless.input g) true /\
       vx touched = vx g) /\
      vx (Endless.handleTouchEnd touched) = 0 /\
      Input.jump (Endless.input (Endless.handleTouchEnd touched)) = false) /\
  (forall clientX g,
      let w := Canvas.width (Fixed.canvas g) in
      let touched := Fixed.handleTouch clientX g in
      let vx this := Fixed.Player.velocityX
                       (Fixed.player (Fixed.movePlayer this)) in
      (clientX < w / 3 -> vx touched = - Fixed.moveSpeed g) /\
      (w / 3 <= clientX -> w * 2 / 3 < clientX ->
       vx touched = Fixed.moveSpeed g) /\
      (w / 3 <= clientX -> clientX <= w * 2 / 3 ->
       Fixed.input touched = Input.set_jump (Fixed.input g) true /\
       vx touched = vx g) /\
      vx (Fixed.handleTouchEnd touched) = 0 /\
      Input.jump (Fixed.input (Fixed.handleTouchEnd touched)) = false).
Proof.
  split; intros clientX g.
  - apply endless_touch_direction.
  - apply fixed_touch_direction.
Qed.

Lemma touch_decides_direction_witness :
  Fixed.Player.velocityX
    (Fixed.player
       (Fixed.movePlayer
          (Fixed.handleTouch 700 (Fixed.handleKeyDown "ArrowLeft" landed_game))))
  = Fixed.moveSpeed (Fixed.handleKeyDown "ArrowLeft" landed_game).
Proof.
  refine (proj1 (proj2 (proj2 touch_decides_direction 700
            (Fixed.handleKeyDown "ArrowLeft" landed_game))) _ _).
  - vm_compute. discriminate.
  - vm_compute. reflexivity.
Defined.

(** ** The camera and the score of the endless variant *)

Lemma endless_camera_inv g t :
  Endless.Reachable g t ->
  let third := Canvas.width (Endless.canvas g) / 3 in
  (third < Endless.Player.x (Endless.player g) /\
   Endless.cameraX g = Endless.Player.x (Endless.player g) - third) \/
  (Endless.Player.x (Endless.player g) <= third /\
   0 <= Endless.cameraX g /\ Endless.cameraX g <= 5).
Proof.
  induction 1 as [w h t0 g t Hw Hh Ht0 E | e g t g' t' Hr IH E].
  - rewrite constructor_eq in E. injection E as <- <-. right. simpl.
    repeat split; lra.
  - destruct e.
    1-5: match goal with H : Endless.handle ?e _ _ = _ |- _ =>
           destruct (handle_input_frame e g t ltac:(discriminate)) as [i Ei];
           rewrite Ei in H; injection H as <- <-
         end; exact IH.
    destruct (reachable_inv g t Hr) as [[] _].
    simpl in E. unfold Endless.update, bind in E.
    destruct (Endless.beforeFallCheck g t) as [[g1 t1] |] eqn:E1;
      [| discriminate].
    destruct (beforeFallCheck_frame g t g1 t1 E1) as (Hc & Hcam & Hx & _).
    destruct (Endless.fellOff g1).
    + destruct (resetGame_frame g1 t1) as (g2 & E2 & Hc2 & Hcam2 & _ & Hx2 & _).
      rewrite E2 in E. injection E as <- <-. right.
      rewrite Hc2, Hcam2, Hx2. repeat split; lra.
    + injection E as <- <-. cbv zeta in IH |- *. rewrite Hc, Hcam, Hx.
      destruct (movePlayer_frame g) as (_ & _ & Hstep).
      rewrite inv_speed in Hstep.
      destruct (camera_step g) as [(Hlt & ->) | (Hle & ->)];
        [left; split; [exact Hlt | reflexivity] |].
      right. split; [exact Hle |]. split; [exact inv_cam0 |].
      destruct IH as [(Hlt0 & Ec) | (_ & _ & H5)]; [| exact H5].
      rewrite Ec. destruct Hstep as [Es | [Es | Es]]; rewrite Es in Hle;
        lra.
Qed.

Lemma Qfloor_small q : 0 <= q -> q < 1 -> Qfloor q = 0%Z.
Proof.
  intros H0 H1.
  assert (Hlo : (0 <= Qfloor q)%Z).
  { change 0%Z with (Qfloor 0). now apply Qfloor_resp_le. }
  assert (Hhi : (Qfloor q < 1)%Z).
  { rewrite Zlt_Qlt. eapply Qle_lt_trans; [apply Qfloor_le | exact H1]. }
  lia.
Qed.

(** X11: in the endless variant the score is a non-negative integer in
    every reachable state: cameraX is at least 0, distance is the number
    of whole hundreds in cameraX, and it is 0 whenever the player is at or
    left of one third of the canvas width. *)
Theorem endless_score_is_whole_hundreds :
  forall g t, Endless.Reachable g t ->
    0 <= Endless.cameraX g /\
    exists n : Z,
      (0 <= n)%Z /\
      Endless.distance g = inject_Z n /\
      inject_Z n * 100 <= Endless.cameraX g /\
      Endless.cameraX g < (inject_Z n + 1) * 100 /\
      (Endless.Player.x (Endless.player g)
       <= Canvas.width (Endless.canvas g) / 3 -> n = 0%Z).
Proof.
  intros g t Hr. destruct (reachable_inv g t Hr) as [[] _].
  split; [exact inv_cam0 |].
  exists (Qfloor (Endless.cameraX g / 100)).
  assert (Hq : 0 <= Endless.cameraX g / 100) by qarith.
  split; [change 0%Z with (Qfloor 0); now apply Qfloor_resp_le |].
  split; [exact inv_dist |].
  pose proof (Qfloor_le (Endless.cameraX g / 100)) as Hle.
  pose proof (Qlt_floor (Endless.cameraX g / 100)) as Hlt.
  rewrite inject_Z_plus in Hlt. change (inject_Z 1) with 1 in Hlt.
  split; [| split].
  - set (fl := inject_Z (Qfloor (Endless.cameraX g / 100))) in *.
    clearbody fl. qarith.
  - set (fl := inject_Z (Qfloor (Endless.cameraX g / 100))) in *.
    clearbody fl. qarith.
  - intros Hx. apply Qfloor_small; [exact Hq |].
    destruct (endless_camera_inv g t Hr) as [(Habs & _) | (_ & _ & H5)];
      [exfalso; lra |].
    clear Hle Hlt inv_dist. qarith.
Qed.

Lemma endless_score_is_whole_hundreds_witness :
  0 <= Endless.cameraX falling_game.
Proof.
  exact (proj1 (endless_score_is_whole_hundreds falling_game half_tape
                  falling_game_reachable)).
Defined.

(** ** The platform list stays a chain *)

Lemma chained_tail p l : EndlessGen.chained p l -> EndlessLayout.chain l.
Proof. destruct l as [| q l]; simpl; [auto | tauto]. Qed.

Lemma chain_suffix pre : forall suf,
  EndlessLayout.chain (pre ++ suf) -> EndlessLayout.chain suf.
Proof.
  induction pre as [| p pre IH]; intros suf H; [exact H |].
  apply IH. exact (chained_tail p _ H).
Qed.

Lemma chained_snoc b c : forall m a,
  EndlessGen.chained a (m ++ [b]) -> EndlessGen.follows b c ->
  EndlessGen.chained a ((m ++ [b]) ++ [c]).
Proof.
  induction m as [| x m IH]; intros a H Hf; simpl in *.
  - tauto.
  - destruct H as [H1 H2]. split; [exact H1 | now apply IH].
Qed.

Lemma chain_snoc m b c :
  EndlessLayout.chain (m ++ [b]) -> EndlessGen.follows b c ->
  EndlessLayout.chain ((m ++ [b]) ++ [c]).
Proof.
  destruct m as [| a m]; simpl; intros H Hf.
  - tauto.
  - now apply chained_snoc.
Qed.

Lemma chained_right_edges c : forall l p,
  EndlessGen.chained p l -> Forall (EndlessGen.generated c) l ->
  Forall (fun q => Platform.x p + Platform.width p
                   < Platform.x q + Platform.width q) l.
Proof.
  induction l as [| q l IH]; intros p H Hg; constructor.
  - destruct H as [(_ & Hf) _]. inversion Hg as [| ? ? (_ & Hw & _) _].
    lra.
  - destruct H as [(_ & Hf) Hc]. inversion Hg as [| ? ? (_ & Hw & _) Hg'].
    subst. specialize (IH q Hc Hg').
    eapply Forall_impl; [| exact IH]. intros r Hr. simpl in Hr. lra.
Qed.

Lemma retained_mono g p q :
  Platform.x p + Platform.width p < Platform.x q + Platform.width q ->
  Endless.retained g p = true -> Endless.retained g q = true.
Proof.
  unfold Endless.retained. rewrite !Qltb_lt. intros H1 H2. lra.
Qed.

Lemma filter_all_true {A : Type} (f : A -> bool) l :
  Forall (fun a => f a = true) l -> filter f l = l.
Proof.
  induction 1 as [| a l Ha _ IH]; simpl; [reflexivity |].
  now rewrite Ha, IH.
Qed.

Lemma filter_chain_suffix c g : forall ch,
  EndlessLayout.chain ch -> Forall (EndlessGen.generated c) ch ->
  exists pre, ch = pre ++ filter (Endless.retained g) ch.
Proof.
  induction ch as [| p l IH]; intros Hc Hg.
  - exists []. reflexivity.
  - inversion Hg as [| ? ? Hgp Hgl]. subst. cbn [filter].
    destruct (Endless.retained g p) eqn:Ep.
    + exists []. simpl. f_equal. symmetry. apply filter_all_true.
      eapply Forall_impl; [| exact (chained_right_edges c l p Hc Hgl)].
      intros q Hq. exact (retained_mono g p q Hq Ep).
    + destruct (IH (chained_tail p l Hc) Hgl) as [pre E].
      exists (p :: pre). simpl. f_equal. exact E.
Qed.

Lemma layout_filter c g gr ch l prev added :
  gr ++ ch = l ++ [prev] ->
  (gr = [] \/ gr = [EndlessGen.ground c]) ->
  ch <> [] ->
  Forall (EndlessGen.generated c) ch ->
  EndlessLayout.chain ch ->
  filter (Endless.retained g) (l ++ [prev])
  = filter (Endless.retained g) l ++ [prev] ->
  (added = [] \/
   exists p, added = [p] /\ EndlessGen.generated c p /\
             EndlessGen.follows prev p) ->
  exists gr' ch',
    filter (Endless.retained g) (gr ++ ch) ++ added = gr' ++ ch' /\
    (gr' = [] \/ gr' = [EndlessGen.ground c]) /\
    ch' <> [] /\
    Forall (EndlessGen.generated c) ch' /\
    EndlessLayout.chain ch'.
Proof.
  intros E Hgr Hne Hgen Hch Hf Hadd.
  destruct (exists_last Hne) as (ch0 & b & ->).
  rewrite app_assoc in E. apply app_inj_tail in E. destruct E as [El <-].
  rewrite <- El in Hf. rewrite (filter_app _ (gr ++ ch0) [b]) in Hf.
  apply app_inv_head in Hf.
  destruct (filter_chain_suffix c g _ Hch Hgen) as [pre Epre].
  rewrite filter_app, Hf in Epre.
  assert (Hgen' : Forall (EndlessGen.generated c)
                    (filter (Endless.retained g) ch0 ++ [b])).
  { rewrite Epre in Hgen. apply Forall_app in Hgen. tauto. }
  assert (Hch' : EndlessLayout.chain
                   (filter (Endless.retained g) ch0 ++ [b])).
  { rewrite Epre in Hch. exact (chain_suffix pre _ Hch). }
  exists (filter (Endless.retained g) gr).
  rewrite (filter_app _ gr), (filter_app _ ch0), Hf, <- app_assoc.
  assert (Hgr' : filter (Endless.retained g) gr = [] \/
                 filter (Endless.retained g) gr = [EndlessGen.ground c]).
  { destruct Hgr as [-> | ->]; [now left |]. cbn [filter].
    destruct (Endless.retained g _); auto. }
  destruct Hadd as [-> | (p & -> & Hp & Hfol)].
  - exists (filter (Endless.retained g) ch0 ++ [b]).
    rewrite app_nil_r. split; [reflexivity |]. split; [exact Hgr' |].
    split; [now destruct (filter (Endless.retained g) ch0) |].
    split; assumption.
  - exists ((filter (Endless.retained g) ch0 ++ [b]) ++ [p]).
    split; [reflexivity |]. split; [exact Hgr' |].
    split; [now destruct (filter (Endless.retained g) ch0) |].
    split; [apply Forall_app; split; [exact Hgen' | now constructor] |].
    now apply chain_snoc.
Qed.

Lemma initial_layout_is_layout c l g :
  EndlessGen.initial_layout c l -> Endless.platforms g = l ->
  Endless.canvas g = c -> EndlessLayout.Layout g.
Proof.
  intros (first & rest & -> & _ & _ & Hgen & Hch) Hp Hc.
  exists [EndlessGen.ground c], (first :: rest). rewrite Hc.
  repeat split; auto. discriminate.
Qed.

Lemma reachable_layout g t :
  Endless.Reachable g t -> EndlessLayout.Layout g.
Proof.
  induction 1 as [w h t0 g t Hw Hh Ht0 E | e g t g' t' Hr IH E].
  - destruct (constructor_inv w h t0 Hw Hh Ht0) as (g0 & E0 & _ & Hc & Hl).
    rewrite E0 in E. injection E as <- <-.
    exact (initial_layout_is_layout _ _ g0 Hl eq_refl Hc).
  - destruct e.
    1-5: match goal with H : Endless.handle ?e _ _ = _ |- _ =>
           destruct (handle_input_frame e g t ltac:(discriminate)) as [i Ei];
           rewrite Ei in H; injection H as <- <-
         end; exact IH.
    destruct (reachable_inv g t Hr) as [Hi Ht].
    destruct (before_platforms_inv g Hi) as (H1 & Hp & Hc).
    destruct (updatePlatforms_inv _ t H1 Ht)
      as (l & prev & added & t1 & Hl & Hf & Eu & Ht1 & Hadd & H2).
    simpl in E. unfold Endless.update, Endless.beforeFallCheck, bind in E.
    rewrite Eu in E. unfold ret in E.
    apply checkCollisions_inv in H2.
    destruct (Endless.fellOff _).
    + destruct (resetGame_inv _ t1 H2 Ht1) as (g2 & E2 & _ & Hlay & Hc2 & _).
      rewrite E2 in E. injection E as <- <-.
      exact (initial_layout_is_layout _ _ g2 Hlay eq_refl Hc2).
    + injection E as <- <-.
      destruct IH as (gr & ch & Epl & Hgr & Hne & Hgen & Hch).
      rewrite Hp in Hl, Hf. rewrite Hc in Hadd.
      rewrite Hl in Hf.
      destruct (layout_filter (Endless.canvas g)
                  (Endless.followCamera (Endless.movePlayer g))
                  gr ch l prev added) as (gr' & ch' & E' & R);
        auto; [congruence |].
      exists gr', ch'. unfold Endless.checkCollisions. endless_fields.
      rewrite Hp, Hc, Epl. split; [exact E' | exact R].
Qed.

(** X12: in the endless variant the level never runs out and platforms
    never pop into view.  In every reachable state the last platform ends
    at least 500 beyond the right edge of the view (cameraX + canvas
    width); the frame's maintenance keeps that platform, and a platform it
    appends starts at least 595 beyond the right edge of the view. *)
Theorem endless_platforms_stay_ahead :
  forall g t, Endless.Reachable g t ->
    (exists l last,
        Endless.platforms g = l ++ [last] /\
        Endless.cameraX g + Canvas.width (Endless.canvas g) + 500
        <= Platform.x last + Platform.width last) /\
    (let g1 := Endless.followCamera (Endless.movePlayer g) in
     exists l last added t',
       Endless.platforms g = l ++ [last] /\
       Endless.retained g1 last = true /\
       Endless.updatePlatforms g1 t
       = Some (Endless.set_platforms g1
                 (filter (Endless.retained g1) l ++ [last] ++ added), t') /\
       (added = [] \/
        exists p, added = [p] /\
                  Endless.cameraX g1 + Canvas.width (Endless.canvas g1) + 595
                  <= Platform.x p)).
Proof.
  intros g t Hr. destruct (reachable_inv g t Hr) as [Hi Ht].
  split; [destruct Hi; destruct inv_last as (l & p & E & H);
          exists l, p; split; [exact E | lra] |].
  intros g1. destruct (before_platforms_inv g Hi) as (H1 & Hp & Hc).
  fold g1 in H1, Hp, Hc.
  destruct (updatePlatforms_inv g1 t H1 Ht)
    as (l & prev & added & t1 & Hl & Hf & E & _ & Hadd & _).
  destruct H1. destruct inv_last as (l' & p' & El' & Hb).
  rewrite Hl in El'. apply app_inj_tail in El'. destruct El' as [_ <-].
  assert (Hkeep : Endless.retained g1 prev = true).
  { unfold Endless.retained. apply Qltb_lt. lra. }
  exists l, prev, added, t1. rewrite <- Hp.
  split; [exact Hl |]. split; [exact Hkeep |].
  split; [rewrite E, Hf, <- app_assoc; reflexivity |].
  destruct Hadd as [-> | (p & -> & _ & (_ & Hgap))]; [now left |].
  right. exists p. split; [reflexivity |]. lra.
Qed.

Lemma endless_platforms_stay_ahead_witness :
  exists l last,
    Endless.platforms start_game = l ++ [last] /\
    Endless.cameraX start_game + Canvas.width (Endless.canvas start_game) + 500
    <= Platform.x last + Platform.width last.
Proof.
  exact (proj1 (endless_platforms_stay_ahead start_game
                  (EndlessGen.skip 10 half_tape) start_game_reachable)).
Defined.



(** X14: in every reachable state of the endless variant every platform
    of the list is either the ground platform (x = 0, y = canvas height -
    50, width twice the canvas width, height 50) or a generated one: width
    between 100 and 300, height 20, and y between 0.3 and 0.7 of the
    canvas height. *)
Theorem endless_every_platform_is_ground_or_generated :
  forall g t, Endless.Reachable g t ->
  forall p, In p (Endless.platforms g) ->
    p = Platform.mk 0 (Canvas.height (Endless.canvas g) - 50)
          (Canvas.width (Endless.canvas g) * 2) 50 \/
    (100 <= Platform.width p <= 300 /\
     Platform.height p = 20 /\
     Canvas.height (Endless.canvas g) * 0.3 <= Platform.y p
     <= Canvas.height (Endless.canvas g) * 0.7).
Proof.
  intros g t Hr p Hin.
  destruct (reachable_layout g t Hr) as (gr & ch & E & Hgr & _ & Hgen & _).
  rewrite E in Hin. apply in_app_or in Hin. destruct Hin as [Hin | Hin].
  - destruct Hgr as [-> | ->]; [contradiction |].
    destruct Hin as [<- | []]. left. reflexivity.
  - right. rewrite Forall_forall in Hgen.
    destruct (Hgen p Hin) as (_ & Hw & _ & Hy & Hh). auto.
Qed.

Lemma endless_every_platform_is_ground_or_generated_witness :
  let p := nth 3 (Endless.platforms start_game) ledge in
  p = Platform.mk 0 (Canvas.height (Endless.canvas start_game) - 50)
        (Canvas.width (Endless.canvas start_game) * 2) 50 \/
  (100 <= Platform.width p <= 300 /\
   Platform.height p = 20 /\
   Canvas.height (Endless.canvas start_game) * 0.3 <= Platform.y p
   <= Canvas.height (Endless.canvas start_game) * 0.7).
Proof.
  refine (endless_every_platform_is_ground_or_generated start_game
            (EndlessGen.skip 10 half_tape) start_game_reachable
            (nth 3 (Endless.platforms start_game) ledge) _).
  right. right. right. left. reflexivity.
Defined.

(** ** The fixed variant: layout and drawing *)

Lemma fixed_update_canvas g : Fixed.canvas (Fixed.update g) = Fixed.canvas g.
Proof.
  unfold Fixed.update.
  destruct (fixed_checkCollisions_x (Fixed.clampToCanvas (Fixed.movePlayer g)))
    as (_ & _ & ->).
  unfold Fixed.clampToCanvas. cbn [Fixed.canvas Fixed.set_player].
  apply fixed_movePlayer_frame.
Qed.

Lemma fixed_handleResize_layout w h g :
  Fixed.platforms g
  = Fixed.platforms (Fixed.constructor (Canvas.width (Fixed.canvas g))
                       (Canvas.height (Fixed.canvas g))) ->
  Fixed.handleResize w h g
  = Some (Fixed.set_platforms (Fixed.set_canvas g (Canvas.mk w h))
            (Fixed.platforms (Fixed.constructor w h))).
Proof.
  intros E. unfold Fixed.handleResize.
  cbn [Fixed.platforms Fixed.set_canvas Fixed.canvas Canvas.width
       Canvas.height].
  rewrite E. reflexivity.
Qed.

Lemma fixed_reachable_layout g :
  Fixed.Reachable g ->
  Fixed.platforms g
  = Fixed.platforms (Fixed.constructor (Canvas.width (Fixed.canvas g))
                       (Canvas.height (Fixed.canvas g))).
Proof.
  induction 1 as [w h | e g g' Hr IH He].
  - reflexivity.
  - destruct e.
    1-4: destruct (fixed_handle_input_eq _ g g' He) as [i ->];
      [discriminate | discriminate | exact IH].
    + simpl in He. rewrite (fixed_handleResize_layout _ _ g IH) in He.
      injection He as <-. reflexivity.
    + simpl in He. injection He as <-.
      now rewrite fixed_update_platforms, fixed_update_canvas.
Qed.

(** X15: in every reachable state of the fixed variant the three platforms
    are exactly those a new game of the current canvas size has; the
    resize handler succeeds, sets the canvas to the new size, lays the
    platforms out as a new game of that size would, and leaves the player
    and the input flags as they are. *)
Theorem fixed_platforms_follow_canvas :
  forall g, Fixed.Reachable g ->
    Fixed.platforms g
    = Fixed.platforms (Fixed.constructor (Canvas.width (Fixed.canvas g))
                         (Canvas.height (Fixed.canvas g))) /\
    forall w h, exists g',
      Fixed.handleResize w h g = Some g' /\
      Fixed.canvas g' = Canvas.mk w h /\
      Fixed.platforms g' = Fixed.platforms (Fixed.constructor w h) /\
      Fixed.player g' = Fixed.player g /\
      Fixed.input g' = Fixed.input g.
Proof.
  intros g Hr. pose proof (fixed_reachable_layout g Hr) as E.
  split; [exact E |]. intros w h. eexists.
  split; [apply (fixed_handleResize_layout w h g E) |]. repeat split.
Qed.

Lemma fixed_platforms_follow_canvas_witness :
  Fixed.platforms landed_game = Fixed.platforms (Fixed.constructor 800 600).
Proof.
  exact (proj1 (fixed_platforms_follow_canvas landed_game
                  landed_game_reachable)).
Defined.

(** X16: in the fixed variant every frame drawn from a reachable state
    whose canvas is at least 32 wide consists of the background over the
    whole canvas, the 32 x 48 player rectangle lying horizontally within
    the canvas, the three platform rectangles of the current canvas size
    in list order, and the two touch zones when the device has touch. *)
Theorem fixed_frame_drawn :
  forall g hasTouch, Fixed.Reachable g ->
    32 <= Canvas.width (Fixed.canvas g) ->
    let w := Canvas.width (Fixed.canvas g) in
    let h := Canvas.height (Fixed.canvas g) in
    exists g' sx sy,
      Fixed.gameLoop hasTouch g
      = (g',
         [SetFillStyle "#000000"; FillRect 0 0 w h;
          SetFillStyle "#00ff00"; FillRect sx sy 32 48;
          SetFillStyle "#888888";
          FillRect 0 (h - 50) w 50;
          FillRect (w * 0.3) (h * 0.7) 200 20;
          FillRect (w * 0.1) (h * 0.5) 200 20]
         ++ (if hasTouch then
               [SetFillStyle "rgba(255, 255, 255, 0.1)";
                FillRect 0 0 (w / 3) h; FillRect (w * 2 / 3) 0 (w / 3) h]
             else [])) /\
      g' = Fixed.update g /\
      0 <= sx /\ sx + 32 <= w.
Proof.
  intros g hasTouch Hr Hw w h. subst w h.
  assert (Hr' : Fixed.Reachable (Fixed.update g))
    by (apply Fixed.reach_event with Frame g; [exact Hr | reflexivity]).
  destruct (fixed_reachable_inv _ Hr') as [_ Hpw'].
  destruct (fixed_reachable_physics _ Hr') as (_ & _ & _ & Hph' & _).
  pose proof (fixed_reachable_layout _ Hr') as Hl.
  rewrite fixed_update_canvas in Hl.
  destruct (fixed_reachable_inv g Hr) as [_ Hpw].
  destruct (fixed_movePlayer_frame g) as (Hmw & Hmc & _).
  destruct (fixed_clamp_bounds (Fixed.movePlayer g)) as (H0 & H1 & H2 & H3).
  { rewrite Hmw, Hmc, Hpw. exact Hw. }
  destruct (fixed_checkCollisions_x
              (Fixed.clampToCanvas (Fixed.movePlayer g))) as (Ex & Ew & Ec).
  cbv zeta in H0, H1, H2, H3.
  exists (Fixed.update g), (Fixed.Player.x (Fixed.player (Fixed.update g))),
    (Fixed.Player.y (Fixed.player (Fixed.update g))).
  split; [| split; [reflexivity |]].
  - unfold Fixed.gameLoop, Fixed.render.
    rewrite Hl, Hpw', Hph', fixed_update_canvas. reflexivity.
  - unfold Fixed.update. rewrite Ex. split; [exact H0 |].
    rewrite H2, Hmw, Hpw, H3, Hmc in H1. exact H1.
Qed.

Lemma fixed_frame_drawn_witness :
  exists g' sx sy rest,
    Fixed.gameLoop false landed_game
    = (g', SetFillStyle "#000000" :: FillRect 0 0 800 600
           :: SetFillStyle "#00ff00" :: FillRect sx sy 32 48 :: rest) /\
    0 <= sx /\ sx + 32 <= 800.
Proof.
  destruct (fixed_frame_drawn landed_game false landed_game_reachable)
    as (g' & sx & sy & E & _ & H0 & H1).
  - vm_compute. discriminate.
  - exists g', sx, sy. eexists. split; [exact E |]. split; assumption.
Defined.

(** ** Touch zones as drawn and as handled *)

Lemma endless_touch_zones toString g clientX :
  0 <= Canvas.width (Endless.canvas g) ->
  exists before lx lw rx rw,
    Endless.render toString true g
    = before ++ [SetFillStyle "rgba(255, 255, 255, 0.1)";
                 FillRect lx 0 lw (Canvas.height (Endless.canvas g));
                 FillRect rx 0 rw (Canvas.height (Endless.canvas g))] /\
    lx = 0 /\ rx + rw == Canvas.width (Endless.canvas g) /\
    (clientX < lx + lw ->
     Endless.input (Endless.handleTouch clientX g)
     = Input.set_right (Input.set_left (Endless.input g) true) false) /\
    (rx < clientX ->
     Endless.input (Endless.handleTouch clientX g)
     = Input.set_left (Input.set_right (Endless.input g) true) false) /\
    (lx + lw <= clientX -> clientX <= rx ->
     Endless.input (Endless.handleTouch clientX g)
     = Input.set_jump (Endless.input g) true).
Proof.
  intros Hw. unfold Endless.render. rewrite !app_assoc.
  eexists. eexists. eexists. eexists. eexists.
  split; [reflexivity |]. split; [reflexivity |].
  split; [qarith |]. unfold Endless.handleTouch.
  destruct (Qltb clientX _) eqn:E1; [| destruct (Qltb _ clientX) eqn:E2].
  - apply Qltb_lt in E1. repeat split; intros; try reflexivity;
      exfalso; qarith.
  - apply Qltb_ge in E1. apply Qltb_lt in E2.
    repeat split; intros; try reflexivity; exfalso; qarith.
  - apply Qltb_ge in E1. apply Qltb_ge in E2.
    repeat split; intros; try reflexivity; exfalso; qarith.
Qed.

Lemma fixed_touch_zones g clientX :
  0 <= Canvas.width (Fixed.canvas g) ->
  exists before lx lw rx rw,
    Fixed.render true g
    = before ++ [SetFillStyle "rgba(255, 255, 255, 0.1)";
                 FillRect lx 0 lw (Canvas.height (Fixed.canvas g));
                 FillRect rx 0 rw (Canvas.height (Fixed.canvas g))] /\
    lx = 0 /\ rx + rw == Canvas.width (Fixed.canvas g) /\
    (clientX < lx + lw ->
     Fixed.input (Fixed.handleTouch clientX g)
     = Input.set_right (Input.set_left (Fixed.input g) true) false) /\
    (rx < clientX ->
     Fixed.input (Fixed.handleTouch clientX g)
     = Input.set_left (Input.set_right (Fixed.input g) true) false) /\
    (lx + lw <= clientX -> clientX <= rx ->
     Fixed.input (Fixed.handleTouch clientX g)
     = Input.set_jump (Fixed.input g) true).
Proof.
  intros Hw. unfold Fixed.render. rewrite !app_assoc.
  eexists. eexists. eexists. eexists. eexists.
  split; [reflexivity |]. split; [reflexivity |].
  split; [qarith |]. unfold Fixed.handleTouch.
  destruct (Qltb clientX _) eqn:E1; [| destruct (Qltb _ clientX) eqn:E2].
  - apply Qltb_lt in E1. repeat split; intros; try reflexivity;
      exfalso; qarith.
  - apply Qltb_ge in E1. apply Qltb_lt in E2.
    repeat split; intros; try reflexivity; exfalso; qarith.
  - apply Qltb_ge in E1. apply Qltb_ge in E2.
    repeat split; intros; try reflexivity; exfalso; qarith.
Qed.

(** X17: in both variants, on a canvas of non-negative width, the two
    touch zones that [render] draws last are the zones [handleTouch]
    acts on.  The left rectangle starts at 0 and a touch left of its right
    edge sets left and clears right; the right rectangle ends at the
    canvas width and a touch right of its left edge sets right and clears
    left; a touch from the right edge of the left rectangle to the left
    edge of the right one only requests a jump. *)
Theorem touch_zones_drawn_are_touch_zones_handled :
  (forall toString g clientX,
      0 <= Canvas.width (Endless.canvas g) ->
      exists before lx lw rx rw,
        Endless.render toString true g
        = before ++ [SetFillStyle "rgba(255, 255, 255, 0.1)";
                     FillRect lx 0 lw (Canvas.height (Endless.canvas g));
                     FillRect rx 0 rw (Canvas.height (Endless.canvas g))] /\
        lx = 0 /\ rx + rw == Canvas.width (Endless.canvas g) /\
        (clientX < lx + lw ->
         Endless.input (Endless.handleTouch clientX g)
         = Input.set_right (Input.set_left (Endless.input g) true) false) /\
        (rx < clientX ->
         Endless.input (Endless.handleTouch clientX g)
         = Input.set_left (Input.set_right (Endless.input g) true) false) /\
        (lx + lw <= clientX -> clientX <= rx ->
         Endless.input (Endless.handleTouch clientX g)
         = Input.set_jump (Endless.input g) true)) /\
  (forall g clientX,
      0 <= Canvas.width (Fixed.canvas g) ->
      exists before lx lw rx rw,
        Fixed.render true g
        = before ++ [SetFillStyle "rgba(255, 255, 255, 0.1)";
                     FillRect lx 0 lw (Canvas.height (Fixed.canvas g));
                     FillRect rx 0 rw (Canvas.height (Fixed.canvas g))] /\
        lx = 0 /\ rx + rw == Canvas.width (Fixed.canvas g) /\
        (clientX < lx + lw ->
         Fixed.input (Fixed.handleTouch clientX g)
         = Input.set_right (Input.set_left (Fixed.input g) true) false) /\
        (rx < clientX ->
         Fixed.input (Fixed.handleTouch clientX g)
         = Input.set_left (Input.set_right (Fixed.input g) true) false) /\
        (lx + lw <= clientX -> clientX <= rx ->
         Fixed.input (Fixed.handleTouch clientX g)
         = Input.set_jump (Fixed.input g) true)).
Proof.
  split.
  - intros toString g clientX. apply endless_touch_zones.
  - intros g clientX. apply fixed_touch_zones.
Qed.

Lemma touch_zones_drawn_are_touch_zones_handled_witness :
  exists before lx lw rx rw,
    Fixed.render true landed_game
    = before ++ [SetFillStyle "rgba(255, 255, 255, 0.1)";
                 FillRect lx 0 lw (Canvas.height (Fixed.canvas landed_game));
                 FillRect rx 0 rw (Canvas.height (Fixed.canvas landed_game))]
    /\ rx + rw == Canvas.width (Fixed.canvas landed_game).
Proof.
  destruct (proj2 touch_zones_drawn_are_touch_zones_handled landed_game 100)
    as (before & lx & lw & rx & rw & E & _ & H & _).
  - vm_compute. discriminate.
  - exists before, lx, lw, rx, rw. split; assumption.
Defined.

(** ** The ground of the fixed variant *)

Lemma fixed_ground_catches g :
  Fixed.Reachable g ->
  32 <= Canvas.width (Fixed.canvas g) ->
  Fixed.Player.y (Fixed.player g) + 48
  <= Canvas.height (Fixed.canvas g) - 50 ->
  Fixed.Player.velocityY (Fixed.player (Fixed.movePlayer g)) < 98 ->
  Fixed.Player.y (Fixed.player (Fixed.update g)) + 48
  <= Canvas.height (Fixed.canvas g) - 50.
Proof.
  intros Hr Hw Hy Hv.
  destruct (fixed_reachable_inv g Hr) as [_ Hpw].
  destruct (fixed_reachable_physics g Hr) as (_ & _ & _ & Hph & _).
  pose proof (fixed_reachable_layout g Hr) as Hl.
  destruct (fixed_movePlayer_frame g) as (Hmw & Hmc & Hmp).
  destruct (fixed_movePlayer_vertical g) as (Mh & _ & My & _).
  destruct (fixed_clamp_bounds (Fixed.movePlayer g)) as (H0 & H1 & H2 & H3).
  { rewrite Hmw, Hmc, Hpw. exact Hw. }
  destruct (fixed_clamp_vertical (Fixed.movePlayer g))
    as (Cy & Cv & Ch & _ & Cp).
  cbv zeta in Mh, My, H0, H1, H2, H3, Cy, Cv, Ch.
  set (this := Fixed.clampToCanvas (Fixed.movePlayer g)) in *.
  rewrite H2, Hmw, Hpw, H3, Hmc in H1.
  assert (Eh : Fixed.Player.height (Fixed.player this) = 48) by congruence.
  assert (Ew : Fixed.Player.width (Fixed.player this) = 32) by congruence.
  assert (Ey : Fixed.Player.y (Fixed.player this)
               = Fixed.Player.y (Fixed.player g)
                 + Fixed.Player.velocityY (Fixed.player this))
    by congruence.
  rewrite <- Cv in Hv.
  assert (Epl : Fixed.platforms this
                = Fixed.platforms
                    (Fixed.constructor (Canvas.width (Fixed.canvas g))
                       (Canvas.height (Fixed.canvas g))))
    by congruence.
  destruct (fixed_checkCollisions_moves_up this)
    as (_ & _ & _ & _ & Hcase).
  cbv zeta in Hcase. unfold Fixed.update. fold this.
  destruct (Qlt_le_dec (Canvas.height (Fixed.canvas g) - 50)
              (Fixed.Player.y (Fixed.player this) + 48)) as [Hlow | Hok].
  - assert (Hl0 : FixedRule.lands
                    (Fixed.Player.set_isJumping (Fixed.player this) true)
                    (Platform.mk 0 (Canvas.height (Fixed.canvas g) - 50)
                       (Canvas.width (Fixed.canvas g)) 50)).
    { unfold FixedRule.lands, FixedRule.overlap, FixedRule.previous_bottom.
      cbn [Fixed.Player.set_isJumping Fixed.Player.x Fixed.Player.y
           Fixed.Player.width Fixed.Player.height Fixed.Player.velocityY
           Platform.x Platform.y Platform.width Platform.height].
      rewrite Eh, Ew. rewrite Ey in Hlow |- *.
      repeat split; lra. }
    unfold Fixed.checkCollisions. cbn [Fixed.player Fixed.set_player].
    rewrite Epl. cbn [Fixed.constructor Fixed.platforms fold_left].
    rewrite (fixed_collide_lands _ _ Hl0), !fixed_snapped_is_final.
    cbn [FixedRule.snapped Fixed.Player.y Fixed.Player.height
         Fixed.Player.set_isJumping Platform.y].
    rewrite Eh. lra.
  - destruct Hcase as [(E & _) | (_ & Hlt & _)]; [rewrite E; exact Hok |].
    lra.
Qed.

(** X19: in the fixed variant the ground catches the player.  From a
    reachable state whose canvas is at least 32 wide, if the player's
    bottom edge is at or above the top of the ground platform (canvas
    height - 50) and the vertical velocity of this frame is less than 98
    (the player's height plus the ground's), then after the update the
    player's bottom edge is still at or above the top of the ground. *)
Theorem fixed_ground_catches_player :
  forall g, Fixed.Reachable g ->
    32 <= Canvas.width (Fixed.canvas g) ->
    Fixed.Player.y (Fixed.player g) + 48
    <= Canvas.height (Fixed.canvas g) - 50 ->
    Fixed.Player.velocityY (Fixed.player (Fixed.movePlayer g)) < 98 ->
    Fixed.Player.y (Fixed.player (Fixed.update g)) + 48
    <= Canvas.height (Fixed.canvas (Fixed.update g)) - 50 /\
    Fixed.Player.height (Fixed.player (Fixed.update g)) = 48.
Proof.
  intros g Hr Hw Hy Hv. rewrite fixed_update_canvas.
  split; [now apply fixed_ground_catches |].
  apply fixed_reachable_physics.
  apply Fixed.reach_event with Frame g; [exact Hr | reflexivity].
Qed.

Lemma fixed_ground_catches_player_witness :
  Fixed.Player.y (Fixed.player (Fixed.update landed_game)) + 48
  <= Canvas.height (Fixed.canvas (Fixed.update landed_game)) - 50.
Proof.
  refine (proj1 (fixed_ground_catches_player landed_game
                   landed_game_reachable _ _ _)).
  - vm_compute. discriminate.
  - vm_compute. discriminate.
  - vm_compute. reflexivity.
Defined.
